(** * Similarity core of the assignment platform (server/src/utils/plagiarism.ts)

    A shallow embedding of [plagiarism.ts]: [bucketScore], [normalizeText],
    [buildVector], [cosineSimilarity], [createContentHash], [toObjectId],
    [extractSubmissionText] (over the readers of the files) and
    [buildSimilarityReport]; and of what [submissionController.ts] does with
    them: the pipeline from the uploaded files to the report, the update of
    the matched peers and the filter of the flagged submissions.  The
    properties of the specification and further properties of the code
    follow.

    Conventions of the embedding.
    - A JavaScript [number] is an IEEE 754 binary64 value: Rocq's primitive
      [float], with its own [+], [-], [*], [/], [sqrt] and comparisons.
    - A JavaScript string is the list of its UTF-16 code units ([list N]);
      [undefined] is [None].
    - A [Map<string, number>] holding occurrence counts is the list of its
      entries in the order of their insertion, which is the order in which
      the loops of [cosineSimilarity] add up their products in binary64.
      The counts themselves are integers ([Z]), which a [number] holds
      exactly below 2^53; each becomes a [number] where the source computes
      with it.
    - Code that can throw returns a [result].
    - A read of a file is a function of the environment ([Readers]) that
      gives the content or, when the read fails, [None]. *)

From Stdlib Require Import ZArith NArith Floats Lia Bool List String Ascii.
From Stdlib Require Import Sorted Permutation.
From stdpp Require Import list.

Set Warnings "-inexact-float".
Local Open Scope Z_scope.

(* ===================================================================== *)
(** * Part I: the program                                                 *)
(* ===================================================================== *)

(** ** Strings *)

Abbreviation jsstring := (list N).

(** A literal of the source, as code units. *)
Definition js (s : string) : jsstring :=
  List.map N_of_ascii (list_ascii_of_string s).

(** Truthiness of [string | undefined]: [undefined] and [""] are falsy. *)
Definition truthy (x : option jsstring) : bool :=
  match x with
  | Some (_ :: _) => true
  | _ => false
  end.

(** [===] on two [string | undefined] values. *)
Definition strict_eq (x y : option jsstring) : bool :=
  bool_decide (x = y).

(** ** Numbers *)

(** The number that a sum of integer counts has reached: the binary64 value
    nearest to [z] (exactly [z] below 2^53). *)
Definition number_of_Z (z : Z) : float :=
  SF2Prim (binary_normalize prec emax z 0 false).

(** [Math.max] and [Math.min] on two arguments: NaN is contagious and
    [+0] is larger than [-0]. *)
Definition Math_max (x y : float) : float :=
  if (is_nan x || is_nan y)%bool then nan
  else if (x <? y)%float then y
  else if (y <? x)%float then x
  else if get_sign x then y else x.

Definition Math_min (x y : float) : float :=
  if (is_nan x || is_nan y)%bool then nan
  else if (x <? y)%float then x
  else if (y <? x)%float then y
  else if get_sign x then x else y.

(** [Number.prototype.toFixed(4)] picks the integer [n] for which
    [n / 10^4 - x] is as close to zero as possible, the larger [n] on a tie;
    here for [x = m * 2^e > 0]. *)
Definition toFixed4_units (m : positive) (e : Z) : Z :=
  if 0 <=? e then Z.pos m * 2 ^ e * 10000
  else (2 * Z.pos m * 10000 + 2 ^ (- e)) / 2 ^ (1 - e).

(** [Number("d.dddd")] for the decimal [n / 10^4]: the nearest binary64
    value, by a correctly rounded division of the two integers. *)
Definition Number_of_units (n : Z) : float :=
  match n with
  | Z.pos p =>
      SF2Prim (SFdiv prec emax (S754_finite false p 0) (S754_finite false 10000 0))
  | _ => 0%float
  end.

(** [Number(x.toFixed(4))].  [toFixed] prints NaN, the infinities and values
    of magnitude 1e21 or more as [String(x)] does, which [Number] reads back
    unchanged; a negative value keeps its sign, so it can come back as [-0]. *)
Definition Number_toFixed4 (x : float) : float :=
  match Prim2SF x with
  | S754_finite s m e =>
      if (1e21 <=? abs x)%float then x
      else
        let v := Number_of_units (toFixed4_units m e) in
        if s then (- v)%float else v
  | S754_zero _ => 0%float
  | _ => x
  end.

(** ** Categories *)

Inductive Category := none | low | medium | high.

(** [CATEGORY_THRESHOLDS] *)
Definition threshold (c : Category) : float :=
  match c with
  | none => 0
  | low => 0.4
  | medium => 0.6
  | high => 0.8
  end%float.

(** [score >= t] is [t <= score], also on NaN (both are false). *)
Definition bucketScore (score : float) : Category :=
  if (threshold high <=? score)%float then high
  else if (threshold medium <=? score)%float then medium
  else if (threshold low <=? score)%float then low
  else none.

(** The order of severity: none < low < medium < high. *)
Definition severity (c : Category) : nat :=
  match c with
  | none => 0
  | low => 1
  | medium => 2
  | high => 3
  end%nat.

(** ** normalizeText *)

(** [a-z0-9] *)
Definition is_az09 (c : N) : bool :=
  ((97 <=? c) && (c <=? 122) || (48 <=? c) && (c <=? 57))%N.

(** The class [\s] of a regular expression, which is also what [trim]
    removes: white space and line terminators. *)
Definition is_space (c : N) : bool :=
  ((9 <=? c) && (c <=? 13) || (c =? 32) || (c =? 160) || (c =? 5760)
   || (8192 <=? c) && (c <=? 8202) || (c =? 8232) || (c =? 8233)
   || (c =? 8239) || (c =? 8287) || (c =? 12288) || (c =? 65279))%N.

(** [String.prototype.toLowerCase], code unit by code unit.  Unicode maps
    exactly these code units to text containing an ASCII letter: [A-Z], the
    dotted capital I (U+0130, to [i] and a combining dot U+0307) and the
    Kelvin sign (U+212A, to [k]).  Every other code unit has a lower-case
    form outside ASCII, which the two replacements of [normalizeText] turn
    into a separator whichever it is; it is left as it is. *)
Definition lower_unit (c : N) : jsstring :=
  (if (65 <=? c) && (c <=? 90) then [c + 32]
   else if c =? 304 then [105; 775]
   else if c =? 8490 then [107]
   else [c])%N.

Definition toLowerCase (s : jsstring) : jsstring :=
  List.flat_map lower_unit s.

(** [s.replace(/[class]+/g, ' ')]: every maximal run of code units of the
    class becomes one space.  [in_run] says that the previous code unit was
    in the class. *)
Fixpoint replace_runs (class : N -> bool) (in_run : bool) (s : jsstring)
  : jsstring :=
  match s with
  | [] => []
  | c :: s' =>
      if class c then
        if in_run then replace_runs class true s'
        else 32%N :: replace_runs class true s'
      else c :: replace_runs class false s'
  end.

(** [trim] removes the white space at both ends, as [trimStart] and
    [trimEnd] do one after the other. *)
Fixpoint trimStart (s : jsstring) : jsstring :=
  match s with
  | c :: s' => if is_space c then trimStart s' else s
  | [] => []
  end.

Fixpoint trimEnd (s : jsstring) : jsstring :=
  match s with
  | c :: s' =>
      match trimEnd s' with
      | [] => if is_space c then [] else [c]
      | rest => c :: rest
      end
  | [] => []
  end.

Definition trim (s : jsstring) : jsstring :=
  trimEnd (trimStart s).

(** [[^a-z0-9\s]] *)
Definition not_az09_space (c : N) : bool :=
  negb (is_az09 c || is_space c).

Definition normalizeText (input : option jsstring) : option jsstring :=
  if negb (truthy input) then None
  else
    let normalized :=
      trim (replace_runs is_space false
              (replace_runs not_az09_space false
                 (toLowerCase (default [] input)))) in
    if (0 <? length normalized)%nat then Some normalized else None.

(** ** Maps *)

(** A [Map<string, number>] of occurrence counts: its entries in the order
    of their insertion. *)
Record JsMap := { Map_entries : list (jsstring * Z) }.

(** [map.get(key)] *)
Fixpoint get_entry (entries : list (jsstring * Z)) (key : jsstring)
  : option Z :=
  match entries with
  | [] => None
  | (k, value) :: rest =>
      if bool_decide (k = key) then Some value else get_entry rest key
  end.

(** [map.set(key, value)]: the entry of a key that the map has keeps its
    place, a new entry goes to the end. *)
Fixpoint set_entry (entries : list (jsstring * Z)) (key : jsstring) (value : Z)
  : list (jsstring * Z) :=
  match entries with
  | [] => [(key, value)]
  | (k, v) :: rest =>
      if bool_decide (k = key) then (k, value) :: rest
      else (k, v) :: set_entry rest key value
  end.

(** [map.values()] *)
Definition Map_values (m : JsMap) : list Z :=
  List.map snd (Map_entries m).

#[global] Instance Map_empty : Empty JsMap := {| Map_entries := [] |}.

#[global] Instance Map_lookup : Lookup jsstring Z JsMap :=
  fun key m => get_entry (Map_entries m) key.

#[global] Instance Map_insert : Insert jsstring Z JsMap :=
  fun key value m => {| Map_entries := set_entry (Map_entries m) key value |}.

#[global] Instance Map_size : Size JsMap :=
  fun m => length (Map_entries m).

(** ** buildVector *)

(** [s.split(sep)] for a one-unit separator: the pieces between the
    separators, empty ones included; [""] splits into [[""]]. *)
Fixpoint split (sep : N) (s : jsstring) : list jsstring :=
  match s with
  | [] => [[]]
  | c :: s' =>
      if (c =? sep)%N then [] :: split sep s'
      else
        match split sep s' with
        | piece :: pieces => (c :: piece) :: pieces
        | [] => [[c]]
        end
  end.

Definition buildVector (normalized : option jsstring) : JsMap :=
  if negb (truthy normalized) then ∅
  else
    foldl
      (fun vector token =>
         match token with
         | [] => vector
         | _ => <[token := default 0 (vector !! token) + 1]> vector
         end)
      ∅ (split 32 (default [] normalized)).

(** ** cosineSimilarity *)

(** [for (const value of v.values()) magnitude += value * value], in
    binary64 and in the order of the entries. *)
Definition magnitude (v : JsMap) : float :=
  foldl
    (fun magnitude value =>
       (magnitude + number_of_Z value * number_of_Z value)%float)
    0%float (Map_values v).

(** The loop over [smaller.entries()], in binary64 and in the order of the
    entries: [larger.get(token)] is falsy when it is [undefined] or [0]. *)
Definition dotProduct (smaller larger : JsMap) : float :=
  foldl
    (fun dot '(token, weight) =>
       match larger !! token with
       | Some otherWeight =>
           if otherWeight =? 0 then dot
           else (dot + number_of_Z weight * number_of_Z otherWeight)%float
       | None => dot
       end)
    0%float (Map_entries smaller).

Definition cosineSimilarity (a b : JsMap) : float :=
  if ((size a =? 0) || (size b =? 0))%nat then 0%float
  else
    let magnitudeA := magnitude a in
    let magnitudeB := magnitude b in
    let denom := (sqrt magnitudeA * sqrt magnitudeB)%float in
    if (denom =? 0)%float then 0%float
    else
      let smaller := if (size a <? size b)%nat then a else b in
      let larger := if (size a <? size b)%nat then b else a in
      let dot := dotProduct smaller larger in
      Math_min 1 (Math_max 0 (dot / denom)).

(** ** Results and object identifiers *)

Inductive Error := BSONError.

Inductive result (A : Type) :=
| Ok (a : A)
| Throw (e : Error).
Arguments Ok {A} a.
Arguments Throw {A} e.

(** A [mongoose.Types.ObjectId]: twelve bytes. *)
Record ObjectId := { id_bytes : list N }.

Definition is_hex (c : N) : bool :=
  ((48 <=? c) && (c <=? 57) || (97 <=? c) && (c <=? 102)
   || (65 <=? c) && (c <=? 70))%N.

Definition hex_value (c : N) : N :=
  (if c <=? 57 then c - 48 else if c <=? 70 then c - 55 else c - 87)%N.

Fixpoint bytes_of_hex (s : jsstring) : list N :=
  match s with
  | hi :: lo :: s' => (16 * hex_value hi + hex_value lo)%N :: bytes_of_hex s'
  | _ => []
  end.

(** [new mongoose.Types.ObjectId(value)] on a string, as the bson package
    documents and implements it: a string of 24 hexadecimal digits gives the
    identifier with those bytes, and any other string throws a [BSONError]. *)
Definition new_ObjectId (value : jsstring) : result ObjectId :=
  if ((length value =? 24)%nat && forallb is_hex value)%bool
  then Ok {| id_bytes := bytes_of_hex value |}
  else Throw BSONError.

(** [mongoose.Types.ObjectId | string] *)
Definition toObjectId (value : ObjectId + jsstring) : result ObjectId :=
  match value with
  | inr s => new_ObjectId s
  | inl oid => Ok oid
  end.

(** ** Reports *)

Record MatchResult := {
  submissionId : ObjectId;
  score : float
}.

Record SimilarityReport := {
  report_score : float;
  category : Category;
  matches : list MatchResult;
  contentHash : option jsstring;
  normalizedText : option jsstring;
  extractedText : option jsstring
}.

Record ExistingSubmission := {
  _id : ObjectId + jsstring;
  peer_normalizedText : option jsstring;
  peer_contentHash : option jsstring
}.

(** ** Array.prototype.sort *)

(** [sort] is stable, and with a consistent comparator its result is the
    ordered arrangement whatever algorithm the engine runs; it is given here
    as insertion from the right.  [x] moves behind [y] when
    [comparefn(x, y) > 0]; a NaN from the comparator counts as [+0]. *)
Fixpoint sort_insert {A} (comparefn : A -> A -> float) (x : A) (l : list A)
  : list A :=
  match l with
  | [] => [x]
  | y :: l' =>
      if (0 <? comparefn x y)%float then y :: sort_insert comparefn x l'
      else x :: l
  end.

Definition Array_sort {A} (comparefn : A -> A -> float) (l : list A) : list A :=
  foldr (sort_insert comparefn) [] l.

(** ** buildSimilarityReport *)

(** The score that one round of the loop gives a peer. *)
Definition peerScore (vector : JsMap) (contentHash : option jsstring)
    (peer : ExistingSubmission) : float :=
  if (truthy contentHash && truthy (peer_contentHash peer)
      && strict_eq contentHash (peer_contentHash peer))%bool
  then 1%float
  else if truthy (peer_normalizedText peer)
  then cosineSimilarity vector (buildVector (peer_normalizedText peer))
  else 0%float.

(** [for (const peer of peers) { ... }], pushing onto [matches]. *)
Fixpoint scanPeers (vector : JsMap) (contentHash : option jsstring)
    (peers : list ExistingSubmission) (matches : list MatchResult)
  : result (list MatchResult) :=
  match peers with
  | [] => Ok matches
  | peer :: peers' =>
      let score := peerScore vector contentHash peer in
      if (0 <? score)%float then
        match toObjectId (_id peer) with
        | Ok oid =>
            scanPeers vector contentHash peers'
              (matches ++ [{| submissionId := oid;
                              score := Number_toFixed4 score |}])
        | Throw e => Throw e
        end
      else scanPeers vector contentHash peers' matches
  end.

Definition buildSimilarityReport (normalizedText contentHash : option jsstring)
    (peers : list ExistingSubmission) : result SimilarityReport :=
  if negb (truthy normalizedText) then
    Ok {| report_score := 0;
          category := none;
          matches := [];
          contentHash := contentHash;
          normalizedText := normalizedText;
          extractedText := None |}
  else
    let vector := buildVector normalizedText in
    match scanPeers vector contentHash peers [] with
    | Throw e => Throw e
    | Ok matches =>
        let sorted := Array_sort (fun a b => (score b - score a)%float) matches in
        let topScore :=
          match sorted with
          | m :: _ => score m
          | [] => 0%float
          end in
        Ok {| report_score := topScore;
              category := bucketScore topScore;
              matches := sorted;
              contentHash := contentHash;
              normalizedText := normalizedText;
              extractedText := None |}
    end.

(** ** createContentHash *)

(** The UTF-8 bytes of a string, as [hash.update(string)] takes them: a
    surrogate pair is one code point of four bytes, and a surrogate without
    its partner is written as U+FFFD. *)
Definition is_high_surrogate (c : N) : bool := ((55296 <=? c) && (c <=? 56319))%N.
Definition is_low_surrogate (c : N) : bool := ((56320 <=? c) && (c <=? 57343))%N.

Definition utf8_of_code_point (p : N) : list N :=
  (if p <? 128 then [p]
   else if p <? 2048 then [192 + p / 64; 128 + p mod 64]
   else if p <? 65536 then [224 + p / 4096; 128 + (p / 64) mod 64; 128 + p mod 64]
   else [240 + p / 262144; 128 + (p / 4096) mod 64; 128 + (p / 64) mod 64;
         128 + p mod 64])%N.

Fixpoint utf8_encode (s : jsstring) : list N :=
  match s with
  | [] => []
  | c :: s' =>
      if is_high_surrogate c then
        match s' with
        | d :: s'' =>
            if is_low_surrogate d
            then utf8_of_code_point (65536 + (c - 55296) * 1024 + (d - 56320))%N
                   ++ utf8_encode s''
            else utf8_of_code_point 65533 ++ utf8_encode s'
        | [] => utf8_of_code_point 65533
        end
      else if is_low_surrogate c then utf8_of_code_point 65533 ++ utf8_encode s'
      else utf8_of_code_point c ++ utf8_encode s'
  end.

(** SHA-256 (FIPS 180-4) on a list of bytes; words are numbers below 2^32. *)
Definition word (x : N) : N := (x mod 4294967296)%N.
Definition rotr (n x : N) : N :=
  N.lor (N.shiftr x n) (word (N.shiftl x (32 - n))).
Definition Ch (x y z : N) : N :=
  N.lxor (N.land x y) (N.land (N.lxor x 4294967295) z).
Definition Maj (x y z : N) : N :=
  N.lxor (N.lxor (N.land x y) (N.land x z)) (N.land y z).
Definition Sigma0 (x : N) : N := N.lxor (N.lxor (rotr 2 x) (rotr 13 x)) (rotr 22 x).
Definition Sigma1 (x : N) : N := N.lxor (N.lxor (rotr 6 x) (rotr 11 x)) (rotr 25 x).
Definition sigma0 (x : N) : N := N.lxor (N.lxor (rotr 7 x) (rotr 18 x)) (N.shiftr x 3).
Definition sigma1 (x : N) : N := N.lxor (N.lxor (rotr 17 x) (rotr 19 x)) (N.shiftr x 10).

(** The constants are defined as FIPS 180-4 defines them, from the first
    prime numbers: the first 32 bits of the fractional parts of their cube
    roots (the 64 round constants) and of their square roots (the 8 words of
    the initial state). *)
Definition is_prime (n : N) : bool :=
  (1 <? n)%N
  && forallb (fun d => negb (n mod N.of_nat d =? 0)%N)
       (seq 2 (N.to_nat n - 2)).

Definition first_primes (count : nat) : list N :=
  firstn count (List.filter is_prime (List.map N.of_nat (seq 0 312))).

(** The largest [r] below [2^bits] with [r^3 <= x]. *)
Fixpoint cube_root (bits : nat) (x r : N) : N :=
  match bits with
  | O => r
  | S bits' =>
      let r' := (r + 2 ^ N.of_nat bits')%N in
      cube_root bits' x (if (r' * r' * r' <=? x)%N then r' else r)
  end.

Definition sha256_K : list N :=
  Eval vm_compute in
    List.map (fun p => word (cube_root 36 (p * 2 ^ 96) 0)) (first_primes 64).

Definition sha256_H : list N :=
  Eval vm_compute in
    List.map (fun p => word (N.sqrt (p * 2 ^ 64))) (first_primes 8).

Record sha256_state := {
  sa : N; sb : N; sc : N; sd : N; se : N; sf : N; sg : N; sh : N
}.

Definition sha256_H0 : sha256_state :=
  {| sa := nth 0 sha256_H 0%N; sb := nth 1 sha256_H 0%N;
     sc := nth 2 sha256_H 0%N; sd := nth 3 sha256_H 0%N;
     se := nth 4 sha256_H 0%N; sf := nth 5 sha256_H 0%N;
     sg := nth 6 sha256_H 0%N; sh := nth 7 sha256_H 0%N |}.

(** The message schedule, latest word first: 48 more words after the 16 of
    the block. *)
Fixpoint extend_schedule (n : nat) (w : list N) : list N :=
  match n with
  | O => w
  | S n' =>
      extend_schedule n'
        (word (sigma1 (nth 1 w 0) + nth 6 w 0 + sigma0 (nth 14 w 0) + nth 15 w 0)%N
         :: w)
  end.

Definition sha256_round (s : sha256_state) (kw : N * N) : sha256_state :=
  let t1 := (sh s + Sigma1 (se s) + Ch (se s) (sf s) (sg s) + fst kw + snd kw)%N in
  let t2 := (Sigma0 (sa s) + Maj (sa s) (sb s) (sc s))%N in
  {| sa := word (t1 + t2); sb := sa s; sc := sb s; sd := sc s;
     se := word (sd s + t1); sf := se s; sg := sf s; sh := sg s |}.

Definition sha256_block (s : sha256_state) (block : list N) : sha256_state :=
  let w := List.rev (extend_schedule 48 (List.rev block)) in
  let r := List.fold_left sha256_round (List.combine sha256_K w) s in
  {| sa := word (sa s + sa r); sb := word (sb s + sb r);
     sc := word (sc s + sc r); sd := word (sd s + sd r);
     se := word (se s + se r); sf := word (sf s + sf r);
     sg := word (sg s + sg r); sh := word (sh s + sh r) |}.

(** Big-endian words of the padded message, 16 to a block. *)
Fixpoint words_of_bytes (bytes : list N) : list N :=
  match bytes with
  | b0 :: b1 :: b2 :: b3 :: rest =>
      (((b0 * 256 + b1) * 256 + b2) * 256 + b3)%N :: words_of_bytes rest
  | _ => []
  end.

Definition sha256_pad (bytes : list N) : list N :=
  let len := N.of_nat (length bytes) in
  let zeros := N.to_nat ((119 - len mod 64) mod 64) in
  let bits := (8 * len)%N in
  bytes ++ [128%N] ++ List.repeat 0%N zeros
        ++ List.map (fun i => ((bits / 256 ^ i) mod 256)%N) [7; 6; 5; 4; 3; 2; 1; 0]%N.

Fixpoint sha256_blocks (fuel : nat) (s : sha256_state) (words : list N) : sha256_state :=
  match fuel, words with
  | S fuel', _ :: _ => sha256_blocks fuel' (sha256_block s (firstn 16 words)) (skipn 16 words)
  | _, _ => s
  end.

Definition hex_digit (d : N) : N := (if d <? 10 then 48 + d else 87 + d)%N.
Definition hex_word (w : N) : jsstring :=
  List.map (fun i => hex_digit ((w / 16 ^ i) mod 16)%N) [7; 6; 5; 4; 3; 2; 1; 0]%N.

Definition sha256_hex (bytes : list N) : jsstring :=
  let words := words_of_bytes (sha256_pad bytes) in
  let s := sha256_blocks (length words) sha256_H0 words in
  hex_word (sa s) ++ hex_word (sb s) ++ hex_word (sc s) ++ hex_word (sd s)
    ++ hex_word (se s) ++ hex_word (sf s) ++ hex_word (sg s) ++ hex_word (sh s).

(** [createHash('sha256').update(normalized).digest('hex')] *)
Definition createContentHash (normalized : option jsstring) : option jsstring :=
  if negb (truthy normalized) then None
  else Some (sha256_hex (utf8_encode (default [] normalized))).

(** ** extractSubmissionText *)

(** What the program reads from its surroundings: [path.extname], and the
    four readers, each of which catches every failure of its read and then
    returns [undefined]. *)
Record Readers := {
  extname : jsstring -> jsstring;
  readTextFile : jsstring -> option jsstring;
  readJsonFile : jsstring -> option jsstring;
  readPdfFile : jsstring -> option jsstring;
  readDocxFile : jsstring -> option jsstring
}.

Definition TEXT_EXTENSIONS : list jsstring :=
  [js ".txt"; js ".md"; js ".markdown"; js ".csv"; js ".tsv"; js ".json"].

(** [set.has(x)] *)
Definition has (set : list jsstring) (x : jsstring) : bool :=
  bool_decide (x ∈ set).

(** One round of the loop over the files: the content that is pushed for
    [filePath], if any. *)
Definition fileChunk (env : Readers) (filePath : jsstring) : option jsstring :=
  let extension := toLowerCase (extname env filePath) in
  if has TEXT_EXTENSIONS extension then
    let content :=
      if bool_decide (extension = js ".json")
      then readJsonFile env filePath
      else readTextFile env filePath in
    if truthy content then content else None
  else if bool_decide (extension = js ".pdf") then
    let content := readPdfFile env filePath in
    if truthy content then content else None
  else if bool_decide (extension = js ".docx") then
    let content := readDocxFile env filePath in
    if truthy content then content else None
  else None.

(** [chunks.join(sep)] *)
Fixpoint join (sep : jsstring) (chunks : list jsstring) : jsstring :=
  match chunks with
  | [] => []
  | [chunk] => chunk
  | chunk :: rest => chunk ++ sep ++ join sep rest
  end.

(** The chunks in the order of their pushes. *)
Definition collectChunks (env : Readers) (files : list jsstring)
    (providedText : option jsstring) : list jsstring :=
  foldl
    (fun chunks filePath =>
       match fileChunk env filePath with
       | Some content => chunks ++ [content]
       | None => chunks
       end)
    (if truthy providedText then [default [] providedText] else [])
    files.

Definition extractSubmissionText (env : Readers) (files : list jsstring)
    (providedText : option jsstring) : option jsstring :=
  let combined := trim (join [10%N] (collectChunks env files providedText)) in
  if (0 <? length combined)%nat then Some combined else None.

(** ** The callers in submissionController.ts *)

(** [submitAssignment] and [updateSubmission], from the extraction of the
    text to the report: what is stored with the submission. *)
Record Analysis := {
  analysis_extractedText : option jsstring;
  analysis_normalizedText : option jsstring;
  analysis_contentHash : option jsstring;
  analysis_report : result SimilarityReport
}.

(** [a ?? b] on [string | undefined] *)
Definition nullish_or (a b : option jsstring) : option jsstring :=
  match a with
  | Some _ => a
  | None => b
  end.

Definition analyseSubmission (env : Readers) (files : list jsstring)
    (providedText : option jsstring) (peerSubmissions : list ExistingSubmission)
  : Analysis :=
  let extractedText := extractSubmissionText env files providedText in
  let normalizedText := normalizeText (nullish_or extractedText providedText) in
  let contentHash := createContentHash normalizedText in
  {| analysis_extractedText := extractedText;
     analysis_normalizedText := normalizedText;
     analysis_contentHash := contentHash;
     analysis_report :=
       buildSimilarityReport normalizedText contentHash peerSubmissions |}.

(** [String(objectId)]: the 24 hexadecimal digits of the twelve bytes. *)
Definition ObjectId_toString (oid : ObjectId) : jsstring :=
  List.flat_map (fun byte => [hex_digit (byte / 16); hex_digit (byte mod 16)]%N)
    (id_bytes oid).

(** The [similarityReport] stored with a submission. *)
Record StoredReport := {
  stored_score : float;
  stored_category : Category;
  stored_matches : list MatchResult
}.

(** [existing => String(existing.submissionId) === submissionId] *)
Definition is_entry_of (id : jsstring) (existing : MatchResult) : bool :=
  bool_decide (ObjectId_toString (submissionId existing) = id).

(** [array.findIndex(predicate)], with [None] for -1. *)
Fixpoint findIndex {A} (predicate : A -> bool) (array : list A) : option nat :=
  match array with
  | [] => None
  | x :: rest =>
      if predicate x then Some 0%nat
      else option_map S (findIndex predicate rest)
  end.

(** The update of a matched peer: the entry of the submission [id] in the
    peer's matches gets the score of the match, or is pushed when there is
    none yet; the peer's score becomes the larger of its old score and the
    score of the match, with the category of that score. *)
Definition updatePeerReport (similarityReport : option StoredReport)
    (id : jsstring) (submissionObjectId : ObjectId) (match_ : MatchResult)
  : StoredReport :=
  let matches :=
    match similarityReport with
    | Some report => stored_matches report
    | None => []
    end in
  let existingIndex := findIndex (is_entry_of id) matches in
  let matches :=
    match existingIndex with
    | Some index =>
        alter (fun existing => {| submissionId := submissionId existing;
                                  score := score match_ |})
          index matches
    | None =>
        matches ++ [{| submissionId := submissionObjectId;
                       score := score match_ |}]
    end in
  let newScore :=
    Math_max
      match similarityReport with
      | Some report => stored_score report
      | None => 0%float
      end
      (score match_) in
  {| stored_score := newScore;
     stored_category := bucketScore newScore;
     stored_matches := matches |}.

(** The filter of [getFlaggedSubmissions],
    ['similarityReport.category': { $in: ['medium', 'high'] }]. *)
Definition flagged (c : Category) : bool :=
  match c with
  | medium | high => true
  | none | low => false
  end.

(** ** Predicates used by the statements *)

(** Neither NaN nor infinite. *)
Definition SFfinite (x : spec_float) : bool :=
  match x with
  | S754_zero _ | S754_finite _ _ _ => true
  | _ => false
  end.

(** [0 <= x && x <= 1] *)
Definition unit_interval (x : float) : bool :=
  ((0 <=? x) && (x <=? 1))%float.

(** Matches in descending order of score. *)
Definition descending (l : list MatchResult) : Prop :=
  StronglySorted (fun a b => (score b <=? score a)%float = true) l.

(** The four steps of [normalizeText] after the check of the input. *)
Definition canonical_form (s : jsstring) : jsstring :=
  trim (replace_runs is_space false
          (replace_runs not_az09_space false (toLowerCase s))).

(** A string of [a-z0-9] words with single spaces between them and possibly
    one at the end; one at the front too when [after_space] is [false]. *)
Fixpoint spaced (after_space : bool) (s : jsstring) : bool :=
  match s with
  | [] => true
  | c :: s' =>
      if (c =? 32)%N then negb after_space && spaced true s'
      else is_az09 c && spaced false s'
  end.

(** The invariants of a report: matches in descending order, the score of
    the first (the largest) match or 0 as score, and the category of that
    score. *)
Definition well_formed (r : SimilarityReport) : Prop :=
  descending (matches r) /\
  report_score r = match matches r with
                   | m :: _ => score m
                   | [] => 0%float
                   end /\
  (forall m, In m (matches r) -> (score m <=? report_score r)%float = true) /\
  category r = bucketScore (report_score r).

(** The comparator of the sort, [(a, b) => b.score - a.score]. *)
Definition by_score_descending (a b : MatchResult) : float :=
  (score b - score a)%float.

(** The peers to which the loop gives a score above 0. *)
Definition scoring_peers (vector : JsMap)
    (contentHash : option jsstring) (peers : list ExistingSubmission)
  : list ExistingSubmission :=
  List.filter (fun peer => (0 <? peerScore vector contentHash peer)%float) peers.

(** [m] is the entry that the loop pushes for [peer]. *)
Definition recorded (vector : JsMap) (contentHash : option jsstring)
    (peer : ExistingSubmission) (m : MatchResult) : Prop :=
  toObjectId (_id peer) = Ok (submissionId m) /\
  score m = Number_toFixed4 (peerScore vector contentHash peer).

(** One round of the dot-product loop adds [weight * larger[token]], an
    absent token counting as weight 0. *)
Definition weight_in (v : JsMap) (token : jsstring) : Z :=
  default 0 (v !! token).

(** What every vector of [buildVector] is: no key twice, and every count at
    least 1. *)
Definition Map_wf (m : JsMap) : Prop :=
  NoDup (List.map fst (Map_entries m)) /\
  Forall (fun entry => 0 < snd entry) (Map_entries m).

(** The sums of the loops of [cosineSimilarity] over the integers, without
    rounding. *)
Definition exact_magnitude (v : JsMap) : Z :=
  foldr (fun value sum => value * value + sum) 0 (Map_values v).

Definition exact_dot (smaller larger : JsMap) : Z :=
  foldr (fun entry sum => snd entry * weight_in larger (fst entry) + sum) 0
    (Map_entries smaller).

(** The binary64 number of a non-negative integer below 2^53: the mantissa
    of 53 digits and its exponent. *)
Definition mantissa53 (p : positive) : positive :=
  Z.to_pos (Z.pos p * 2 ^ (53 - Z.pos (digits2_pos p))).

Definition SFofZ (z : Z) : spec_float :=
  match z with
  | Z.pos p => S754_finite false (mantissa53 p) (Z.pos (digits2_pos p) - 53)
  | _ => S754_zero false
  end.

(** [0-9a-f] *)
Definition is_lower_hex (c : N) : bool :=
  ((48 <=? c) && (c <=? 57) || (97 <=? c) && (c <=? 102))%N.

(** How often [token] is among the pieces of a split. *)
Definition occurrences (token : jsstring) (pieces : list jsstring) : Z :=
  Z.of_nat (length (filter (fun piece => piece = token) pieces)).

(** One round of the loop of [buildVector]. *)
Definition countToken (vector : JsMap) (token : jsstring)
  : JsMap :=
  match token with
  | [] => vector
  | _ => <[token := default 0 (vector !! token) + 1]> vector
  end.

(** ** Sample inputs *)

(** Scenario 1 of the specification: the text ["the quick brown fox"], its
    SHA-256 digest, and a stored submission with the same text and digest. *)
Definition fox_text : jsstring := js "the quick brown fox".

Definition fox_hash : jsstring :=
  js "9ecb36561341d18eb65484e833efea61edc74b84cf5e6ae1b81c63533e25fc8f".

Definition fox_peer : ExistingSubmission :=
  {| _id := inr (js "65f0a1b2c3d4e5f601234567");
     peer_normalizedText := Some fox_text;
     peer_contentHash := Some fox_hash |}.

(** Scenario 3: ["a b c d"] against a stored ["a b x y"], and against two
    more stored submissions, one sharing three words and one sharing none. *)
Definition abcd_text : jsstring := js "a b c d".

Definition abcd_hash : jsstring :=
  js "f82ce1b653e30b1ceb5711bbf75965dd24513011d7daa48bbd8610550154a1fd".

Definition abxy_peer : ExistingSubmission :=
  {| _id := inr (js "65f0a1b2c3d4e5f601234568");
     peer_normalizedText := Some (js "a b x y");
     peer_contentHash :=
       Some (js "b219d4df4763893218ed4d61d1c72a2f35c9d4234446380b1c01d700030f1cb7") |}.

Definition abc_peer : ExistingSubmission :=
  {| _id := inl {| id_bytes := [101; 240; 161; 178; 195; 212; 229; 246; 1; 35; 69; 105]%N |};
     peer_normalizedText := Some (js "a b c");
     peer_contentHash :=
       Some (js "0e9f64031fcb2bc708b531c2a20441580425d151a38503f38592a7dd36019d3b") |}.

Definition abcd_peers : list ExistingSubmission :=
  [abxy_peer; abc_peer; fox_peer].

Definition abcd_report : SimilarityReport :=
  Eval vm_compute in
    match buildSimilarityReport (Some abcd_text) (Some abcd_hash) abcd_peers with
    | Ok r => r
    | Throw _ =>
        {| report_score := 0; category := none; matches := [];
           contentHash := None; normalizedText := None; extractedText := None |}
    end.

(** Two long texts that share the single word ["a"]: one ["a"] followed by
    142 times ["c"], and one ["a"] followed by 142 times ["b"], each with its
    SHA-256 digest. *)
Definition a_then (word : string) : jsstring :=
  js "a" ++ List.concat (List.repeat (js " " ++ js word) 142).

Definition a_then_c_hash : jsstring :=
  js "69f9544c8911fd4a608ee76582abea5b4128259cd98752206747a256116a0380".

Definition a_then_b_peer : ExistingSubmission :=
  {| _id := inr (js "65f0a1b2c3d4e5f601234569");
     peer_normalizedText := Some (a_then "b");
     peer_contentHash :=
       Some (js "a962755f1e60c109046ca3b9f18cc84ea45460c7e07e263c224670440a142edd") |}.

(** A stored submission whose identifier is not the text of an ObjectId. *)
Definition ill_named_peer : ExistingSubmission :=
  {| _id := inr (js "peer-1");
     peer_normalizedText := Some (js "a b x y");
     peer_contentHash :=
       Some (js "b219d4df4763893218ed4d61d1c72a2f35c9d4234446380b1c01d700030f1cb7") |}.


(** The vectors of two texts with the same words in another order: a word
    that occurs 94906266 times, before or after two words that occur
    once. *)
Definition heavy_first : JsMap :=
  {| Map_entries := [(js "x", 94906266); (js "y", 1); (js "z", 1)] |}.

Definition heavy_last : JsMap :=
  {| Map_entries := [(js "y", 1); (js "z", 1); (js "x", 94906266)] |}.

(** Three uploaded files: a text file that reads well, a PDF whose read
    fails, and a picture. *)
Definition sample_readers : Readers :=
  {| extname := fun filePath =>
       if bool_decide (filePath = js "uploads/essay.TXT") then js ".TXT"
       else if bool_decide (filePath = js "uploads/scan.pdf") then js ".pdf"
       else if bool_decide (filePath = js "uploads/photo.png") then js ".png"
       else [];
     readTextFile := fun filePath =>
       if bool_decide (filePath = js "uploads/essay.TXT")
       then Some (js " Hello, World!! ")
       else None;
     readJsonFile := fun _ => None;
     readPdfFile := fun _ => None;
     readDocxFile := fun _ => None |}.

Definition sample_extracted : jsstring :=
  js "My answer" ++ [10%N] ++ js " Hello, World!!".

(** The report stored with a peer that matched one submission before. *)
Definition sample_oid : ObjectId :=
  {| id_bytes := [101; 240; 161; 178; 195; 212; 229; 246; 1; 35; 69; 103]%N |}.

Definition other_oid : ObjectId :=
  {| id_bytes := [101; 240; 161; 178; 195; 212; 229; 246; 1; 35; 69; 104]%N |}.

Definition sample_stored : StoredReport :=
  {| stored_score := 0.9;
     stored_category := high;
     stored_matches := [{| submissionId := other_oid; score := 0.45 |};
                        {| submissionId := sample_oid; score := 0.9 |}] |}.

Definition sample_match : MatchResult :=
  {| submissionId := other_oid; score := 0.5 |}.

(* ===================================================================== *)
(** * Part II: properties                                                 *)
(* ===================================================================== *)

(** ** Binary64: comparisons *)

Lemma SFcompare_antisym x y :
  SFcompare y x = option_map CompOpp (SFcompare x y).
Proof.
  destruct x as [[]|[]| |[] m1 e1], y as [[]|[]| |[] m2 e2]; simpl; try reflexivity;
    change (Pos.compare_cont Eq m1 m2) with (Pos.compare m1 m2);
    change (Pos.compare_cont Eq m2 m1) with (Pos.compare m2 m1);
    rewrite (Z.compare_antisym e1 e2), (Pos.compare_antisym m1 m2);
    destruct (e1 ?= e2); simpl; try reflexivity;
    destruct (m1 ?= m2)%positive; reflexivity.
Qed.

Lemma SFcompare_refl x : x <> S754_nan -> SFcompare x x = Some Eq.
Proof.
  destruct x as [[]|[]| |[] m e]; simpl; try congruence; intros _;
    rewrite Z.compare_refl, Pos.compare_cont_refl; reflexivity.
Qed.

Ltac cmp_cases :=
  repeat match goal with
  | H : context [Z.compare ?a ?b] |- _ => destruct (Z.compare_spec a b); simpl in H
  | H : context [Pos.compare_cont Eq ?a ?b] |- _ =>
      change (Pos.compare_cont Eq a b) with (Pos.compare a b) in H;
      destruct (Pos.compare_spec a b); simpl in H
  | |- context [Z.compare ?a ?b] => destruct (Z.compare_spec a b); simpl
  | |- context [Pos.compare_cont Eq ?a ?b] =>
      change (Pos.compare_cont Eq a b) with (Pos.compare a b);
      destruct (Pos.compare_spec a b); simpl
  end.

Lemma SFleb_trans x y z :
  SFleb x y = true -> SFleb y z = true -> SFleb x z = true.
Proof.
  unfold SFleb.
  destruct x as [[]|[]| |[] m1 e1], y as [[]|[]| |[] m2 e2], z as [[]|[]| |[] m3 e3];
    simpl; try congruence; intros H1 H2; cmp_cases; subst; try congruence; try lia.
Qed.

Lemma is_nan_spec x : is_nan x = true <-> Prim2SF x = S754_nan.
Proof.
  unfold is_nan. rewrite FloatAxioms.eqb_spec. unfold SFeqb. split.
  - intros H. destruct (Prim2SF x) eqn:E; try reflexivity;
      rewrite SFcompare_refl in H by congruence; discriminate.
  - intros ->. reflexivity.
Qed.

Lemma SFmul_comm x y : SF64mul x y = SF64mul y x.
Proof.
  unfold SF64mul.
  destruct x as [sx|sx| |sx mx ex], y as [sy|sy| |sy my ey]; simpl;
    rewrite ?(xorb_comm sx sy), ?(Pos.mul_comm mx my), ?(Z.add_comm ex ey);
    reflexivity.
Qed.

Lemma mul_comm (x y : float) : (x * y = y * x)%float.
Proof. apply Prim2SF_inj. rewrite !mul_spec. apply SFmul_comm. Qed.

Lemma digits2_pos_bounds m :
  2 ^ (Z.pos (digits2_pos m) - 1) <= Z.pos m < 2 ^ Z.pos (digits2_pos m).
Proof.
  induction m as [m IH|m IH|]; simpl digits2_pos.
  - rewrite Pos2Z.inj_succ, Z.pow_succ_r by lia.
    replace (Z.succ (Z.pos (digits2_pos m)) - 1) with (Z.succ (Z.pos (digits2_pos m) - 1)) by lia.
    rewrite Z.pow_succ_r by lia. lia.
  - rewrite Pos2Z.inj_succ, Z.pow_succ_r by lia.
    replace (Z.succ (Z.pos (digits2_pos m)) - 1) with (Z.succ (Z.pos (digits2_pos m) - 1)) by lia.
    rewrite Z.pow_succ_r by lia. lia.
  - simpl. lia.
Qed.

Lemma valid_finite s m e :
  valid_binary (S754_finite s m e) = true ->
  -1074 <= e <= 971 /\ Z.pos (digits2_pos m) <= 53 /\
  (-1074 < e -> Z.pos (digits2_pos m) = 53).
Proof.
  unfold SpecFloat.valid_binary, bounded, canonical_mantissa, fexp, SpecFloat.emin, emax, prec.
  intros H. apply andb_true_iff in H as [H1 H2].
  apply Z.eqb_eq in H1. apply Z.leb_le in H2. lia.
Qed.

(** ** Binary64: rounding never loses a non-zero mantissa *)

Lemma shr_1_m mrs : 0 <= shr_m mrs -> shr_m (shr_1 mrs) = shr_m mrs / 2.
Proof.
  destruct mrs as [m r s]; simpl. intros H.
  destruct m as [|[p|p|]|p]; simpl; try lia; try reflexivity.
  - rewrite Pos2Z.inj_xI. apply Z.div_unique with 1; lia.
  - rewrite (Pos2Z.inj_xO p). apply Z.div_unique with 0; lia.
Qed.

Lemma iter_shr_1_m k : forall mrs,
  0 <= shr_m mrs -> shr_m (SpecFloat.iter_pos shr_1 k mrs) = shr_m mrs / 2 ^ Z.pos k.
Proof.
  induction k as [k IH|k IH|]; intros mrs H; simpl SpecFloat.iter_pos.
  - assert (H1 : 0 <= shr_m (shr_1 mrs)) by (rewrite shr_1_m by lia; apply Z.div_pos; lia).
    assert (H2 : 0 <= shr_m (SpecFloat.iter_pos shr_1 k (shr_1 mrs)))
      by (rewrite IH by lia; apply Z.div_pos; [lia | apply Z.pow_pos_nonneg; lia]).
    assert (P : 2 ^ Z.pos k~1 = 2 * 2 ^ Z.pos k * 2 ^ Z.pos k).
    { rewrite Pos2Z.inj_xI.
      replace (2 * Z.pos k + 1) with (1 + Z.pos k + Z.pos k) by lia.
      rewrite !Z.pow_add_r, Z.pow_1_r by lia. reflexivity. }
    rewrite IH, IH, shr_1_m, P by lia.
    rewrite !Z.div_div by (try apply Z.pow_pos_nonneg; lia).
    f_equal. lia.
  - assert (H2 : 0 <= shr_m (SpecFloat.iter_pos shr_1 k mrs))
      by (rewrite IH by lia; apply Z.div_pos; [lia | apply Z.pow_pos_nonneg; lia]).
    assert (P : 2 ^ Z.pos k~0 = 2 ^ Z.pos k * 2 ^ Z.pos k).
    { rewrite (Pos2Z.inj_xO k).
      replace (2 * Z.pos k) with (Z.pos k + Z.pos k) by lia.
      rewrite !Z.pow_add_r by lia. reflexivity. }
    rewrite IH, IH, P by lia.
    rewrite !Z.div_div by (try apply Z.pow_pos_nonneg; lia).
    reflexivity.
  - rewrite shr_1_m by lia. reflexivity.
Qed.

Lemma shr_record_of_loc_m m l : shr_m (shr_record_of_loc m l) = m.
Proof. destruct l as [|[]]; reflexivity. Qed.

(** Shifting a positive mantissa to its canonical exponent leaves it positive,
    as long as the exponent is not below [emin]. *)
Lemma shr_fexp_pos m e l :
  0 < m -> -1074 <= e ->
  0 < shr_m (fst (shr_fexp prec emax m e l)) /\
  -1074 <= snd (shr_fexp prec emax m e l).
Proof.
  intros Hm He. unfold shr_fexp, shr.
  destruct m as [|p|p]; try lia. simpl Zdigits2.
  pose proof (digits2_pos_bounds p) as Hd.
  set (d := Z.pos (digits2_pos p)) in *.
  unfold fexp, SpecFloat.emin, emax, prec.
  destruct (Z.max (d + e - 53) (3 - 1024 - 53) - e) as [|k|k] eqn:E; simpl;
    rewrite ?shr_record_of_loc_m; try lia.
  rewrite iter_shr_1_m by (rewrite shr_record_of_loc_m; lia).
  rewrite shr_record_of_loc_m. split; [|lia].
  apply Z.div_str_pos. split; [apply Z.pow_pos_nonneg; lia|].
  apply Z.le_trans with (2 ^ (d - 1)); [|lia].
  apply Z.pow_le_mono_r; lia.
Qed.

Lemma round_nearest_even_pos m l : 0 < m -> 0 < round_nearest_even m l.
Proof. intros H. destruct l as [|[]]; simpl; try lia. destruct (Z.even m); lia. Qed.

Lemma binary_round_aux_sign s m e l :
  0 < m -> -1074 <= e ->
  (exists m' e', binary_round_aux prec emax s m e l = S754_finite s m' e') \/
  binary_round_aux prec emax s m e l = S754_infinity s.
Proof.
  intros Hm He. unfold binary_round_aux.
  destruct (shr_fexp_pos m e l Hm He) as [H1 H2].
  destruct (shr_fexp prec emax m e l) as [mrs' e'] eqn:E1. simpl in H1, H2.
  pose proof (round_nearest_even_pos (shr_m mrs') (loc_of_shr_record mrs') H1) as H3.
  destruct (shr_fexp_pos _ e' loc_Exact H3 H2) as [H4 H5].
  destruct (shr_fexp prec emax _ e' loc_Exact) as [mrs'' e''] eqn:E2. simpl in H4, H5.
  destruct (shr_m mrs'') as [|p|p]; try lia.
  destruct (e'' <=? emax - prec); eauto.
Qed.

Lemma shl_align_spec m e e' :
  exists m', shl_align m e e' = (m', Z.min e e').
Proof.
  unfold shl_align. destruct (e' - e) as [|k|k] eqn:E;
    [exists m | exists m | exists (Pos.iter xO m k)]; f_equal; lia.
Qed.

Lemma binary_round_sign s m e :
  -1074 <= e ->
  (exists m' e', binary_round prec emax s m e = S754_finite s m' e') \/
  binary_round prec emax s m e = S754_infinity s.
Proof.
  intros He. unfold binary_round.
  destruct (shl_align_spec m e (fexp prec emax (Z.pos (digits2_pos m) + e))) as [m' ->].
  apply binary_round_aux_sign; [lia|].
  unfold fexp, SpecFloat.emin, emax, prec. lia.
Qed.

Lemma iter_xO_pow k : forall m, Z.pos (Pos.iter xO m k) = Z.pos m * 2 ^ Z.pos k.
Proof.
  induction k using Pos.peano_ind; intros m.
  - simpl. lia.
  - rewrite Pos.iter_succ, Pos2Z.inj_succ, Z.pow_succ_r by lia.
    rewrite (Pos2Z.inj_xO (Pos.iter xO m k)), IHk. lia.
Qed.

Lemma shl_align_fst m e e' :
  e' <= e -> Z.pos (fst (shl_align m e e')) = Z.pos m * 2 ^ (e - e').
Proof.
  intros H. unfold shl_align. destruct (e' - e) as [|k|k] eqn:E; simpl; try lia.
  - replace (e - e') with 0 by lia. rewrite Z.pow_0_r. lia.
  - replace (e - e') with (Z.pos k) by lia. apply iter_xO_pow.
Qed.

(** ** Binary64: the sign of a difference *)

Lemma binary_normalize_compare D e :
  -1074 <= e ->
  SFcompare (binary_normalize prec emax D e false) (S754_zero false) = Some (D ?= 0).
Proof.
  intros He. destruct D as [|p|p]; simpl; [reflexivity| |].
  - destruct (binary_round_sign false p e He) as [(m' & e' & ->)| ->]; reflexivity.
  - destruct (binary_round_sign true p e He) as [(m' & e' & ->)| ->]; reflexivity.
Qed.

(** On canonical mantissas the order of the values is the lexicographic order
    of exponent and mantissa. *)
Lemma aligned_compare m1 e1 m2 e2 :
  valid_binary (S754_finite false m1 e1) = true ->
  valid_binary (S754_finite false m2 e2) = true ->
  (Z.pos m1 * 2 ^ (e1 - Z.min e1 e2) ?= Z.pos m2 * 2 ^ (e2 - Z.min e1 e2)) =
  match e1 ?= e2 with
  | Lt => Lt
  | Gt => Gt
  | Eq => Pos.compare_cont Eq m1 m2
  end.
Proof.
  intros V1 V2.
  apply valid_finite in V1 as (B1 & D1 & N1), V2 as (B2 & D2 & N2).
  pose proof (digits2_pos_bounds m1) as P1.
  pose proof (digits2_pos_bounds m2) as P2.
  assert (L1 : Z.pos m1 < 2 ^ 53)
    by (eapply Z.lt_le_trans; [apply P1 | apply Z.pow_le_mono_r; lia]).
  assert (L2 : Z.pos m2 < 2 ^ 53)
    by (eapply Z.lt_le_trans; [apply P2 | apply Z.pow_le_mono_r; lia]).
  change (Pos.compare_cont Eq m1 m2) with (Z.pos m1 ?= Z.pos m2).
  destruct (Z.compare_spec e1 e2) as [E|E|E].
  - subst e2. rewrite Z.min_id, Z.sub_diag, Z.pow_0_r, !Z.mul_1_r. reflexivity.
  - rewrite Z.min_l, Z.sub_diag, Z.pow_0_r, Z.mul_1_r by lia.
    apply Z.compare_lt_iff.
    rewrite N2 in P2 by lia.
    assert (2 ^ 1 <= 2 ^ (e2 - e1)) by (apply Z.pow_le_mono_r; lia).
    change (2 ^ (53 - 1)) with 4503599627370496 in P2.
    change (2 ^ 53) with 9007199254740992 in L1.
    change (2 ^ 1) with 2 in H. nia.
  - rewrite Z.min_r, Z.sub_diag, Z.pow_0_r, Z.mul_1_r by lia.
    apply Z.compare_gt_iff.
    rewrite N1 in P1 by lia.
    assert (2 ^ 1 <= 2 ^ (e1 - e2)) by (apply Z.pow_le_mono_r; lia).
    change (2 ^ (53 - 1)) with 4503599627370496 in P1.
    change (2 ^ 53) with 9007199254740992 in L2.
    change (2 ^ 1) with 2 in H. nia.
Qed.

(** The sign of a difference of two finite numbers is the outcome of their
    comparison: a subtraction never rounds a non-zero difference to zero. *)
Lemma SFsub_compare x y :
  valid_binary x = true -> valid_binary y = true ->
  SFfinite x = true -> SFfinite y = true ->
  SFcompare (SF64sub y x) (S754_zero false) = SFcompare y x.
Proof.
  intros Vx Vy Fx Fy.
  destruct x as [sx|sx| |sx mx ex], y as [sy|sy| |sy my ey]; try discriminate.
  - destruct sx, sy; reflexivity.
  - reflexivity.
  - simpl. destruct sx; reflexivity.
  - unfold SF64sub, SFsub.
    pose proof (valid_finite _ _ _ Vx) as (Bx & _).
    pose proof (valid_finite _ _ _ Vy) as (By & _).
    rewrite binary_normalize_compare by lia.
    rewrite !shl_align_fst by lia.
    pose proof (aligned_compare my ey mx ex Vy Vx) as A.
    set (Y := Z.pos my * 2 ^ (ey - Z.min ey ex)) in *.
    set (X := Z.pos mx * 2 ^ (ex - Z.min ey ex)) in *.
    assert (0 < Y) by (apply Z.mul_pos_pos; [lia | apply Z.pow_pos_nonneg; lia]).
    assert (0 < X) by (apply Z.mul_pos_pos; [lia | apply Z.pow_pos_nonneg; lia]).
    simpl SFcompare. f_equal.
    destruct sy, sx; simpl cond_Zopp.
    + replace (match ey ?= ex with Lt => Gt | Eq => CompOpp (Pos.compare_cont Eq my mx) | Gt => Lt end)
        with (CompOpp (Y ?= X)) by (rewrite A; destruct (ey ?= ex); reflexivity).
      rewrite <- Z.compare_antisym.
      destruct (Z.compare_spec X Y); [apply Z.compare_eq_iff | apply Z.compare_lt_iff | apply Z.compare_gt_iff]; lia.
    + apply Z.compare_lt_iff. lia.
    + apply Z.compare_gt_iff. lia.
    + rewrite <- A.
      destruct (Z.compare_spec Y X); [apply Z.compare_eq_iff | apply Z.compare_lt_iff | apply Z.compare_gt_iff]; lia.
Qed.

(** ** Binary64: numbers of the unit interval *)

Lemma ltb_leb x y : (x <? y)%float = true -> (x <=? y)%float = true.
Proof.
  rewrite ltb_spec, leb_spec. unfold SFltb, SFleb.
  destruct (SFcompare _ _) as [[]|]; congruence.
Qed.

Lemma leb_trans x y z :
  (x <=? y)%float = true -> (y <=? z)%float = true -> (x <=? z)%float = true.
Proof. rewrite !leb_spec. apply SFleb_trans. Qed.

Lemma leb_not_nan x y : (x <=? y)%float = true -> is_nan x = false /\ is_nan y = false.
Proof.
  rewrite leb_spec. unfold SFleb. intros H.
  split; apply not_true_is_false; rewrite is_nan_spec; intros E; rewrite E in H;
    [|destruct (Prim2SF x)]; discriminate.
Qed.

Lemma ltb_false_leb x y :
  is_nan x = false -> is_nan y = false ->
  (x <? y)%float = false -> (y <=? x)%float = true.
Proof.
  intros Hx Hy. rewrite ltb_spec, leb_spec. unfold SFltb, SFleb.
  rewrite (SFcompare_antisym (Prim2SF x) (Prim2SF y)).
  destruct (SFcompare (Prim2SF x) (Prim2SF y)) as [[]|] eqn:E; simpl; try congruence.
  intros _. exfalso.
  apply not_true_iff_false in Hx, Hy. rewrite is_nan_spec in Hx, Hy.
  destruct (Prim2SF x), (Prim2SF y); simpl in E; congruence.
Qed.

Lemma leb_false_ltb x y :
  is_nan x = false -> is_nan y = false ->
  (x <=? y)%float = false -> (y <? x)%float = true.
Proof.
  intros Hx Hy. rewrite ltb_spec, leb_spec. unfold SFltb, SFleb.
  rewrite (SFcompare_antisym (Prim2SF x) (Prim2SF y)).
  destruct (SFcompare (Prim2SF x) (Prim2SF y)) as [[]|] eqn:E; simpl; try congruence.
  intros _. exfalso.
  apply not_true_iff_false in Hx, Hy. rewrite is_nan_spec in Hx, Hy.
  destruct (Prim2SF x), (Prim2SF y); simpl in E; congruence.
Qed.

Lemma ltb_leb_false x y : (x <? y)%float = true -> (y <=? x)%float = false.
Proof.
  rewrite ltb_spec, leb_spec. unfold SFltb, SFleb.
  rewrite (SFcompare_antisym (Prim2SF x) (Prim2SF y)).
  destruct (SFcompare (Prim2SF x) (Prim2SF y)) as [[]|]; simpl; congruence.
Qed.

Lemma Prim2SF_0 : Prim2SF 0 = S754_zero false.
Proof. reflexivity. Qed.

Lemma Prim2SF_1 : Prim2SF 1 = S754_finite false 4503599627370496 (-52).
Proof. reflexivity. Qed.

Lemma unit_interval_finite x :
  unit_interval x = true -> SFfinite (Prim2SF x) = true.
Proof.
  unfold unit_interval. rewrite andb_true_iff, !leb_spec. unfold SFleb.
  rewrite Prim2SF_0, Prim2SF_1.
  intros [H0 H1]. destruct (Prim2SF x) as [|[]| |]; try reflexivity.
  - vm_compute in H0. discriminate.
  - vm_compute in H1. discriminate.
  - vm_compute in H0. discriminate.
Qed.

Lemma SFsub_pos_ltb d px py :
  SFcompare d (S754_zero false) = SFcompare py px ->
  SFltb (S754_zero false) d = SFltb px py.
Proof.
  intros S. unfold SFltb.
  rewrite (SFcompare_antisym d (S754_zero false)), S.
  rewrite (SFcompare_antisym px py).
  destruct (SFcompare px py) as [[]|]; reflexivity.
Qed.

(** On numbers of the unit interval the comparator [b - a] of a descending
    sort is positive exactly when [a < b]. *)
Lemma sub_pos_ltb x y :
  unit_interval x = true -> unit_interval y = true ->
  (0 <? y - x)%float = (x <? y)%float.
Proof.
  intros Hx Hy.
  rewrite (ltb_spec x y), (ltb_spec 0 (y - x)), Prim2SF_0.
  apply SFsub_pos_ltb. rewrite sub_spec.
  apply SFsub_compare.
  - apply Prim2SF_valid.
  - apply Prim2SF_valid.
  - apply unit_interval_finite, Hx.
  - apply unit_interval_finite, Hy.
Qed.

Lemma toFixed4_units_unit m e :
  Z.pos m <= 2 ^ (- e) -> e < 0 -> 0 <= toFixed4_units m e <= 10000.
Proof.
  intros Hm He. unfold toFixed4_units.
  destruct (Z.leb_spec 0 e); [lia|].
  assert (P : 0 < 2 ^ (- e)) by (apply Z.pow_pos_nonneg; lia).
  replace (1 - e) with (Z.succ (- e)) by lia.
  rewrite Z.pow_succ_r by lia.
  split.
  - apply Z.div_pos; lia.
  - apply Z.lt_succ_r, Z.div_lt_upper_bound; lia.
Qed.

Lemma Number_of_units_table :
  forallb (fun n => unit_interval (Number_of_units (Z.of_nat n))) (seq 0 (Z.to_nat 10001)) = true.
Proof. vm_compute. reflexivity. Qed.

Lemma Number_of_units_unit n :
  0 <= n <= 10000 -> unit_interval (Number_of_units n) = true.
Proof.
  intros H. pose proof Number_of_units_table as T.
  rewrite forallb_forall in T.
  rewrite <- (Z2Nat.id n) by lia. apply T, in_seq. lia.
Qed.

Lemma SFleb_finite m1 e1 m2 e2 :
  SFleb (S754_finite false m1 e1) (S754_finite false m2 e2) = true ->
  e1 < e2 \/ (e1 = e2 /\ Z.pos m1 <= Z.pos m2).
Proof.
  unfold SFleb, SFcompare.
  change (Pos.compare_cont Eq m1 m2) with (Z.pos m1 ?= Z.pos m2).
  destruct (Z.compare_spec e1 e2); [|lia|discriminate].
  destruct (Z.compare_spec (Z.pos m1) (Z.pos m2)); try discriminate; lia.
Qed.

Lemma SFltb_zero_finite s m e :
  SFltb (S754_zero false) (S754_finite s m e) = true -> s = false.
Proof. destruct s; [discriminate | reflexivity]. Qed.

Lemma abs_nonneg_finite x m e :
  Prim2SF x = S754_finite false m e -> abs x = x.
Proof.
  intros E. apply Prim2SF_inj. rewrite abs_spec, E. reflexivity.
Qed.

(** A positive score of at most 1 is stored as the number that a decimal
    [n / 10^4] with [0 <= n <= 10^4] denotes. *)
Lemma Number_toFixed4_units x :
  (0 <? x)%float = true -> (x <=? 1)%float = true ->
  exists n, 0 <= n <= 10000 /\ Number_toFixed4 x = Number_of_units n.
Proof.
  intros H0 H1.
  unfold Number_toFixed4.
  pose proof (Prim2SF_valid x) as V.
  pose proof H1 as H1'.
  rewrite ltb_spec, Prim2SF_0 in H0. rewrite leb_spec, Prim2SF_1 in H1.
  destruct (Prim2SF x) as [s|s| |s m e] eqn:E.
  - discriminate.
  - destruct s; discriminate.
  - discriminate.
  - rewrite (SFltb_zero_finite _ _ _ H0) in *.
    rewrite (abs_nonneg_finite x m e E).
    destruct (1e21 <=? x)%float eqn:Big.
    { pose proof (leb_trans 1e21 x 1 Big H1') as F. discriminate F. }
    eexists; split; [|reflexivity].
    apply valid_finite in V as (B & D & N).
    pose proof (digits2_pos_bounds m) as P.
    apply SFleb_finite in H1.
    assert (L : Z.pos m < 2 ^ 53)
      by (eapply Z.lt_le_trans; [apply P | apply Z.pow_le_mono_r; lia]).
    apply toFixed4_units_unit; [|lia].
    destruct H1 as [He|[-> Hm]]; [|exact Hm].
    apply Z.le_trans with (2 ^ 53); [lia|]. apply Z.pow_le_mono_r; lia.
Qed.

Lemma Number_toFixed4_unit x :
  (0 <? x)%float = true -> (x <=? 1)%float = true ->
  unit_interval (Number_toFixed4 x) = true.
Proof.
  intros H0 H1. destruct (Number_toFixed4_units x H0 H1) as (n & Hn & ->).
  apply Number_of_units_unit, Hn.
Qed.

Lemma ltb_not_nan x y :
  (x <? y)%float = true -> is_nan x = false /\ is_nan y = false.
Proof. intros H. apply leb_not_nan, ltb_leb, H. Qed.

Lemma leb_refl x : is_nan x = false -> (x <=? x)%float = true.
Proof.
  intros H. apply not_true_iff_false in H. rewrite is_nan_spec in H.
  rewrite leb_spec. unfold SFleb. rewrite SFcompare_refl by exact H. reflexivity.
Qed.

Lemma ltb_negb_leb x y :
  is_nan x = false -> is_nan y = false ->
  (x <? y)%float = negb (y <=? x)%float.
Proof.
  intros Hx Hy. destruct (y <=? x)%float eqn:E; simpl.
  - destruct (x <? y)%float eqn:F; [|reflexivity].
    apply ltb_leb_false in F. congruence.
  - apply leb_false_ltb; assumption.
Qed.

(** ** Binary64: sums and products of integers below 2^53 are exact *)

Lemma digits2_pos_unique m d :
  2 ^ (d - 1) <= Z.pos m < 2 ^ d -> Z.pos (digits2_pos m) = d.
Proof.
  intros [H1 H2]. pose proof (digits2_pos_bounds m) as [B1 B2].
  set (D := Z.pos (digits2_pos m)) in *.
  assert (0 < d).
  { destruct (Z.ltb_spec 0 d); [assumption|].
    assert (2 ^ d <= 2 ^ 0) by (destruct (Z.ltb_spec d 0);
      [rewrite Z.pow_neg_r by lia; simpl; lia | apply Z.pow_le_mono_r; lia]).
    simpl in *. lia. }
  destruct (Z.lt_trichotomy D d) as [L|[E|L]]; [|exact E|].
  - assert (2 ^ D <= 2 ^ (d - 1)) by (apply Z.pow_le_mono_r; lia). lia.
  - assert (2 ^ d <= 2 ^ (D - 1)) by (apply Z.pow_le_mono_r; lia). lia.
Qed.

Lemma iter_shr_1_exact k : forall q M,
  Z.pos M = Z.pos q * 2 ^ Z.pos k ->
  SpecFloat.iter_pos shr_1 k {| shr_m := Z.pos M; shr_r := false; shr_s := false |}
  = {| shr_m := Z.pos q; shr_r := false; shr_s := false |}.
Proof.
  induction k as [k IH|k IH|]; intros q M H; simpl SpecFloat.iter_pos.
  - assert (P : 2 ^ Z.pos k~1 = 2 * 2 ^ Z.pos k * 2 ^ Z.pos k).
    { rewrite Pos2Z.inj_xI.
      replace (2 * Z.pos k + 1) with (1 + Z.pos k + Z.pos k) by lia.
      rewrite !Z.pow_add_r, Z.pow_1_r by lia. reflexivity. }
    rewrite P in H.
    assert (0 < 2 ^ Z.pos k) by (apply Z.pow_pos_nonneg; lia).
    destruct M as [M|M|]; try lia.
    rewrite (IH (Z.to_pos (Z.pos q * 2 ^ Z.pos k)) M).
    + apply IH. rewrite Z2Pos.id by lia. reflexivity.
    + rewrite Z2Pos.id by lia. rewrite (Pos2Z.inj_xO M) in H. nia.
  - assert (P : 2 ^ Z.pos k~0 = 2 ^ Z.pos k * 2 ^ Z.pos k).
    { rewrite (Pos2Z.inj_xO k).
      replace (2 * Z.pos k) with (Z.pos k + Z.pos k) by lia.
      rewrite !Z.pow_add_r by lia. reflexivity. }
    rewrite P in H.
    assert (0 < 2 ^ Z.pos k) by (apply Z.pow_pos_nonneg; lia).
    rewrite (IH (Z.to_pos (Z.pos q * 2 ^ Z.pos k)) M).
    + apply IH. rewrite Z2Pos.id by lia. reflexivity.
    + rewrite Z2Pos.id by lia. lia.
  - change (2 ^ 1) with 2 in H. destruct M as [M|M|]; try lia.
    f_equal. lia.
Qed.

(** A mantissa of 53 digits followed by [n] zero bits rounds to itself. *)
Lemma binary_round_aux_exact s q M e n :
  Z.pos (digits2_pos q) = 53 -> 0 <= n ->
  Z.pos M = Z.pos q * 2 ^ n ->
  -1074 <= e + n <= 971 ->
  binary_round_aux prec emax s (Z.pos M) e loc_Exact = S754_finite s q (e + n).
Proof.
  intros Hq Hn HM He.
  assert (DM : Z.pos (digits2_pos M) = 53 + n).
  { apply digits2_pos_unique. pose proof (digits2_pos_bounds q) as B.
    rewrite Hq in B. rewrite HM.
    replace (53 + n - 1) with (52 + n) by lia. rewrite !Z.pow_add_r by lia.
    assert (0 < 2 ^ n) by (apply Z.pow_pos_nonneg; lia).
    change (53 - 1) with 52 in B. nia. }
  assert (S2 : shr_fexp prec emax (Z.pos q) (e + n) loc_Exact
               = ({| shr_m := Z.pos q; shr_r := false; shr_s := false |}, e + n)).
  { unfold shr_fexp, shr. simpl Zdigits2. rewrite Hq.
    unfold fexp, SpecFloat.emin, emax, prec.
    replace (Z.max (53 + (e + n) - 53) (3 - 1024 - 53) - (e + n)) with 0 by lia.
    reflexivity. }
  assert (S1 : shr_fexp prec emax (Z.pos M) e loc_Exact
               = ({| shr_m := Z.pos q; shr_r := false; shr_s := false |}, e + n)).
  { unfold shr_fexp, shr. simpl Zdigits2. rewrite DM.
    unfold fexp, SpecFloat.emin, emax, prec.
    replace (Z.max (53 + n + e - 53) (3 - 1024 - 53) - e) with n by lia.
    destruct n as [|k|k]; try lia.
    - rewrite Z.pow_0_r in HM. assert (M = q) by lia. subst M.
      rewrite Z.add_0_r. reflexivity.
    - simpl shr_record_of_loc. rewrite (iter_shr_1_exact k q M HM). reflexivity. }
  unfold binary_round_aux. rewrite S1. simpl shr_m. simpl loc_of_shr_record.
  simpl round_nearest_even. rewrite S2. simpl shr_m.
  unfold emax, prec. destruct (Z.leb_spec (e + n) (1024 - 53)); [reflexivity | lia].
Qed.

Lemma mantissa53_spec p :
  Z.pos (digits2_pos p) <= 53 ->
  Z.pos (mantissa53 p) = Z.pos p * 2 ^ (53 - Z.pos (digits2_pos p)) /\
  Z.pos (digits2_pos (mantissa53 p)) = 53.
Proof.
  intros H. unfold mantissa53. pose proof (digits2_pos_bounds p) as B.
  set (d := Z.pos (digits2_pos p)) in *.
  assert (0 < 2 ^ (53 - d)) by (apply Z.pow_pos_nonneg; lia).
  rewrite Z2Pos.id by lia. split; [reflexivity|].
  apply digits2_pos_unique. rewrite Z2Pos.id by lia.
  assert (E1 : 2 ^ (53 - 1) = 2 ^ (d - 1) * 2 ^ (53 - d))
    by (rewrite <- Z.pow_add_r by lia; f_equal; lia).
  assert (E2 : 2 ^ 53 = 2 ^ d * 2 ^ (53 - d))
    by (rewrite <- Z.pow_add_r by lia; f_equal; lia).
  rewrite E1, E2. nia.
Qed.

(** Rounding [p * 2^(-k)], for an integer [p] of at most 53 digits. *)
Lemma binary_round_aux_integer s p M k :
  Z.pos (digits2_pos p) <= 53 -> 0 <= k ->
  Z.pos M = Z.pos p * 2 ^ k ->
  53 - Z.pos (digits2_pos p) <= k ->
  binary_round_aux prec emax s (Z.pos M) (- k) loc_Exact
  = S754_finite s (mantissa53 p) (Z.pos (digits2_pos p) - 53).
Proof.
  intros Hd Hk HM Hkd. destruct (mantissa53_spec p Hd) as [Em Dm].
  set (d := Z.pos (digits2_pos p)) in *.
  replace (d - 53) with (- k + (k - (53 - d))) by lia.
  apply binary_round_aux_exact; try lia.
  rewrite HM, Em. rewrite <- Z.mul_assoc, <- Z.pow_add_r by lia.
  f_equal. f_equal. lia.
Qed.

Lemma binary_round_integer s p M k :
  Z.pos (digits2_pos p) <= 53 -> 0 <= k ->
  Z.pos M = Z.pos p * 2 ^ k ->
  binary_round prec emax s M (- k)
  = S754_finite s (mantissa53 p) (Z.pos (digits2_pos p) - 53).
Proof.
  intros Hd Hk HM. destruct (mantissa53_spec p Hd) as [Em Dm].
  pose proof (digits2_pos_bounds p) as B.
  set (d := Z.pos (digits2_pos p)) in *.
  assert (DM : Z.pos (digits2_pos M) = d + k).
  { apply digits2_pos_unique. rewrite HM.
    replace (d + k - 1) with (d - 1 + k) by lia. rewrite !Z.pow_add_r by lia.
    assert (0 < 2 ^ k) by (apply Z.pow_pos_nonneg; lia). nia. }
  unfold binary_round. rewrite DM. unfold fexp, SpecFloat.emin, emax, prec.
  replace (Z.max (d + k + - k - 53) (3 - 1024 - 53)) with (d - 53) by lia.
  destruct (Z.le_gt_cases (53 - d) k) as [L|L].
  - assert (E : shl_align M (- k) (d - 53) = (M, - k)).
    { unfold shl_align. destruct (d - 53 - - k) eqn:E; try reflexivity. lia. }
    rewrite E. change (S754_finite s (mantissa53 p) (d - 53))
      with (S754_finite s (mantissa53 p) (Z.pos (digits2_pos p) - 53)).
    apply binary_round_aux_integer; assumption.
  - pose proof (shl_align_fst M (- k) (d - 53) ltac:(lia)) as F.
    assert (E : snd (shl_align M (- k) (d - 53)) = d - 53).
    { unfold shl_align. destruct (d - 53 - - k) eqn:E; simpl; lia. }
    destruct (shl_align M (- k) (d - 53)) as [mz ez]. simpl in F, E. subst ez.
    assert (mz = mantissa53 p).
    { apply Pos2Z.inj. rewrite F, Em, HM.
      rewrite <- Z.mul_assoc, <- Z.pow_add_r by lia. f_equal. f_equal. lia. }
    subst mz.
    replace (d - 53) with (d - 53 + 0) at 2 by lia.
    apply binary_round_aux_exact; try lia; try exact Dm.
Qed.

Lemma small_digits p : Z.pos p < 2 ^ 53 -> Z.pos (digits2_pos p) <= 53.
Proof.
  intros H. pose proof (digits2_pos_bounds p) as [B _].
  destruct (Z.le_gt_cases (Z.pos (digits2_pos p)) 53) as [L|L]; [exact L|].
  assert (2 ^ 53 <= 2 ^ (Z.pos (digits2_pos p) - 1)) by (apply Z.pow_le_mono_r; lia).
  lia.
Qed.

Lemma binary_normalize_small z :
  0 <= z < 2 ^ 53 -> binary_normalize prec emax z 0 false = SFofZ z.
Proof.
  intros [H0 H]. destruct z as [|p|p]; try lia; [reflexivity|].
  unfold binary_normalize, SFofZ.
  apply (binary_round_integer false p p 0); [apply small_digits, H | lia |].
  rewrite Z.pow_0_r. lia.
Qed.

Lemma SFofZ_valid z : 0 <= z < 2 ^ 53 -> valid_binary (SFofZ z) = true.
Proof.
  intros [H0 H]. destruct z as [|p|p]; try lia; [reflexivity|].
  unfold SFofZ. pose proof (small_digits p H) as Hd.
  destruct (mantissa53_spec p Hd) as [_ Dm].
  pose proof (digits2_pos_bounds p) as B.
  unfold valid_binary, bounded, canonical_mantissa. rewrite Dm.
  unfold fexp, SpecFloat.emin, emax, prec.
  apply andb_true_iff. split; [apply Z.eqb_eq | apply Z.leb_le]; lia.
Qed.

Lemma Prim2SF_number_of_Z z :
  0 <= z < 2 ^ 53 -> Prim2SF (number_of_Z z) = SFofZ z.
Proof.
  intros H. unfold number_of_Z. rewrite binary_normalize_small by exact H.
  apply Prim2SF_SF2Prim, SFofZ_valid, H.
Qed.

Lemma SFadd_small x y :
  0 <= x -> 0 <= y -> x + y < 2 ^ 53 ->
  SFadd prec emax (SFofZ x) (SFofZ y) = SFofZ (x + y).
Proof.
  intros Hx Hy H.
  destruct x as [|p|p], y as [|q|q]; try lia; try reflexivity.
  assert (Hp : Z.pos (digits2_pos p) <= 53) by (apply small_digits; lia).
  assert (Hq : Z.pos (digits2_pos q) <= 53) by (apply small_digits; lia).
  destruct (mantissa53_spec p Hp) as [Ep _].
  destruct (mantissa53_spec q Hq) as [Eq' _].
  change (Z.pos p + Z.pos q) with (Z.pos (p + q)).
  unfold SFofZ, SFadd.
  set (dp := Z.pos (digits2_pos p)) in *. set (dq := Z.pos (digits2_pos q)) in *.
  set (ez := Z.min (dp - 53) (dq - 53)).
  pose proof (shl_align_fst (mantissa53 p) (dp - 53) ez ltac:(lia)) as Fp.
  pose proof (shl_align_fst (mantissa53 q) (dq - 53) ez ltac:(lia)) as Fq.
  unfold cond_Zopp.
  destruct (shl_align (mantissa53 p) (dp - 53) ez) as [mp ?].
  destruct (shl_align (mantissa53 q) (dq - 53) ez) as [mq ?].
  simpl fst in *. change (Z.pos mp + Z.pos mq) with (Z.pos (mp + mq)).
  unfold binary_normalize.
  replace ez with (- (- ez)) by lia.
  apply binary_round_integer; [apply small_digits; lia | lia |].
  rewrite !Pos2Z.inj_add, Fp, Fq, Ep, Eq'. fold dp dq.
  rewrite <- !Z.mul_assoc, <- !Z.pow_add_r by lia.
  replace (53 - dp + (dp - 53 - ez)) with (- ez) by lia.
  replace (53 - dq + (dq - 53 - ez)) with (- ez) by lia. lia.
Qed.

Lemma SFmul_small x y :
  0 <= x -> 0 <= y -> x * y < 2 ^ 53 ->
  SFmul prec emax (SFofZ x) (SFofZ y) = SFofZ (x * y).
Proof.
  intros Hx Hy H.
  destruct x as [|p|p], y as [|q|q]; try lia; try reflexivity.
  assert (Hp : Z.pos (digits2_pos p) <= 53) by (apply small_digits; nia).
  assert (Hq : Z.pos (digits2_pos q) <= 53) by (apply small_digits; nia).
  destruct (mantissa53_spec p Hp) as [Ep Dp].
  destruct (mantissa53_spec q Hq) as [Eq' Dq].
  change (Z.pos p * Z.pos q) with (Z.pos (p * q)) in *.
  pose proof (digits2_pos_bounds p) as Bp. pose proof (digits2_pos_bounds q) as Bq.
  pose proof (digits2_pos_bounds (p * q)) as Bpq.
  unfold SFofZ, SFmul. simpl xorb.
  set (dp := Z.pos (digits2_pos p)) in *. set (dq := Z.pos (digits2_pos q)) in *.
  set (dpq := Z.pos (digits2_pos (p * q))) in *.
  assert (Dge : dp + dq - 1 <= dpq).
  { destruct (Z.le_gt_cases (dp + dq - 1) dpq) as [L|L]; [exact L|].
    assert (2 ^ dpq <= 2 ^ (dp + dq - 2)) by (apply Z.pow_le_mono_r; lia).
    assert (2 ^ (dp + dq - 2) = 2 ^ (dp - 1) * 2 ^ (dq - 1))
      by (rewrite <- Z.pow_add_r by lia; f_equal; lia).
    rewrite Pos2Z.inj_mul in Bpq. nia. }
  replace (dp - 53 + (dq - 53)) with (- (106 - dp - dq)) by lia.
  apply binary_round_aux_integer; [apply small_digits; lia | lia | | fold dpq; lia].
  rewrite !Pos2Z.inj_mul, Ep, Eq'. fold dp dq.
  replace (106 - dp - dq) with ((53 - dp) + (53 - dq)) by lia.
  rewrite Z.pow_add_r by lia. ring.
Qed.

Lemma add_small x y :
  0 <= x -> 0 <= y -> x + y < 2 ^ 53 ->
  (number_of_Z x + number_of_Z y)%float = number_of_Z (x + y).
Proof.
  intros Hx Hy H. apply Prim2SF_inj.
  rewrite add_spec, !Prim2SF_number_of_Z by lia. apply SFadd_small; assumption.
Qed.

Lemma mul_small x y :
  0 <= x -> 0 <= y -> x * y < 2 ^ 53 -> x < 2 ^ 53 -> y < 2 ^ 53 ->
  (number_of_Z x * number_of_Z y)%float = number_of_Z (x * y).
Proof.
  intros Hx Hy H Bx By. apply Prim2SF_inj.
  rewrite mul_spec, !Prim2SF_number_of_Z by nia. apply SFmul_small; assumption.
Qed.

(** ** bucketScore *)

Lemma threshold_chain :
  (threshold medium <=? threshold high)%float = true /\
  (threshold low <=? threshold medium)%float = true.
Proof. split; reflexivity. Qed.

Lemma bucketScore_cases s :
  let h := (threshold high <=? s)%float in
  let m := (threshold medium <=? s)%float in
  let l := (threshold low <=? s)%float in
  (h = true -> m = true) /\ (m = true -> l = true) /\
  bucketScore s = if h then high else if m then medium else if l then low else none.
Proof.
  destruct threshold_chain as [C1 C2]. repeat split.
  - intros H. exact (leb_trans (threshold medium) (threshold high) s C1 H).
  - intros H. exact (leb_trans (threshold low) (threshold medium) s C2 H).
Qed.

(** C1.  For every score [s] (a number: not NaN), [bucketScore s] is
    ["high"] iff [s >= 0.8], ["medium"] iff [0.6 <= s < 0.8], ["low"] iff
    [0.4 <= s < 0.6] and ["none"] iff [s < 0.4]; and the six boundary values
    0.79, 0.8, 0.59, 0.6, 0.39 and 0.4 fall as the specification lists them. *)
Theorem bucketScore_thresholds :
  (forall s : float,
     is_nan s = false ->
     (bucketScore s = high <-> (0.8 <=? s)%float = true) /\
     (bucketScore s = medium <->
        (0.6 <=? s)%float = true /\ (s <? 0.8)%float = true) /\
     (bucketScore s = low <->
        (0.4 <=? s)%float = true /\ (s <? 0.6)%float = true) /\
     (bucketScore s = none <-> (s <? 0.4)%float = true)) /\
  bucketScore 0.79 = medium /\ bucketScore 0.8 = high /\
  bucketScore 0.59 = low /\ bucketScore 0.6 = medium /\
  bucketScore 0.39 = none /\ bucketScore 0.4 = low.
Proof.
  split; [|repeat split].
  intros s Hs.
  destruct (bucketScore_cases s) as (Hhm & Hml & ->).
  rewrite (ltb_negb_leb s 0.8 Hs eq_refl), (ltb_negb_leb s 0.6 Hs eq_refl),
    (ltb_negb_leb s 0.4 Hs eq_refl).
  change (0.8 <=? s)%float with (threshold high <=? s)%float.
  change (0.6 <=? s)%float with (threshold medium <=? s)%float.
  change (0.4 <=? s)%float with (threshold low <=? s)%float.
  destruct (threshold high <=? s)%float, (threshold medium <=? s)%float,
    (threshold low <=? s)%float; simpl;
    try (specialize (Hhm eq_refl); discriminate);
    try (specialize (Hml eq_refl); discriminate);
    repeat split; intros; try discriminate; try tauto;
    repeat match goal with H : _ /\ _ |- _ => destruct H end; discriminate.
Qed.

(** The claim at the score 0.5. *)
Lemma bucketScore_thresholds_witness :
  (bucketScore 0.5 = high <-> (0.8 <=? 0.5)%float = true) /\
  (bucketScore 0.5 = medium <->
     (0.6 <=? 0.5)%float = true /\ (0.5 <? 0.8)%float = true) /\
  (bucketScore 0.5 = low <->
     (0.4 <=? 0.5)%float = true /\ (0.5 <? 0.6)%float = true) /\
  (bucketScore 0.5 = none <-> (0.5 <? 0.4)%float = true).
Proof. exact (proj1 bucketScore_thresholds 0.5%float eq_refl). Defined.

(** C9.  [bucketScore] is monotone: a larger score never has a lower
    severity. *)
Theorem bucketScore_monotone (s1 s2 : float) :
  (s1 <=? s2)%float = true ->
  (severity (bucketScore s1) <= severity (bucketScore s2))%nat.
Proof.
  intros H.
  destruct (bucketScore_cases s1) as (_ & _ & ->).
  destruct (bucketScore_cases s2) as (Hhm & Hml & ->).
  pose proof (fun c E => leb_trans (threshold c) s1 s2 E H) as T.
  pose proof (T high) as Th. pose proof (T medium) as Tm. pose proof (T low) as Tl.
  destruct (threshold high <=? s1)%float, (threshold medium <=? s1)%float,
    (threshold low <=? s1)%float;
    try rewrite (Th eq_refl); try rewrite (Tm eq_refl) in *;
    try rewrite (Tl eq_refl) in *;
    destruct (threshold high <=? s2)%float, (threshold medium <=? s2)%float,
      (threshold low <=? s2)%float; simpl; try lia;
    try (specialize (Hhm eq_refl)); try (specialize (Hml eq_refl));
    try (specialize (Th eq_refl)); try (specialize (Tm eq_refl));
    try (specialize (Tl eq_refl)); discriminate.
Qed.

(** The claim at the scores 0.5 and 0.7. *)
Lemma bucketScore_monotone_witness :
  (severity (bucketScore 0.5) <= severity (bucketScore 0.7))%nat.
Proof. exact (bucketScore_monotone 0.5 0.7 eq_refl). Defined.

(** ** cosineSimilarity *)

Lemma get_entry_Some_In entries key value :
  get_entry entries key = Some value -> In (key, value) entries.
Proof.
  induction entries as [|[k v] entries IH]; simpl; [discriminate|].
  destruct (decide (k = key)) as [->|E].
  - rewrite bool_decide_eq_true_2 by reflexivity. intros H. injection H as ->.
    left. reflexivity.
  - rewrite bool_decide_eq_false_2 by exact E. intros H. right. exact (IH H).
Qed.

Lemma get_entry_None entries key :
  ~ In key (List.map fst entries) -> get_entry entries key = None.
Proof.
  induction entries as [|[k v] entries IH]; simpl; [reflexivity|].
  intros H. rewrite bool_decide_eq_false_2 by tauto. apply IH. tauto.
Qed.

Lemma get_entry_In entries key value :
  In (key, value) entries -> get_entry entries key <> None.
Proof.
  induction entries as [|[k v] entries IH]; simpl; [tauto|].
  intros [H|H].
  - injection H as -> ->. rewrite bool_decide_eq_true_2 by reflexivity. discriminate.
  - destruct (bool_decide (k = key)); [discriminate | exact (IH H)].
Qed.

Lemma weight_in_positive (v : JsMap) token :
  Forall (fun entry => 0 < snd entry) (Map_entries v) -> 0 <= weight_in v token.
Proof.
  intros F. unfold weight_in, lookup, Map_lookup.
  destruct (get_entry (Map_entries v) token) as [w|] eqn:E; simpl; [|lia].
  apply get_entry_Some_In in E. rewrite List.Forall_forall in F.
  specialize (F _ E). simpl in F. lia.
Qed.

Lemma exact_dot_nonneg (larger : JsMap) entries :
  Forall (fun entry => 0 < snd entry) entries ->
  Forall (fun entry => 0 < snd entry) (Map_entries larger) ->
  0 <= foldr (fun entry sum => snd entry * weight_in larger (fst entry) + sum) 0
         entries.
Proof.
  intros F G. induction F as [|[t w] entries Hw F IH]; simpl; [lia|].
  pose proof (weight_in_positive larger t G). simpl in Hw. nia.
Qed.

(** As long as the sum stays below 2^53, the loop for the dot product adds
    up integers without rounding. *)
Lemma dotProduct_exact_from (larger : JsMap) entries : forall acc,
  0 <= acc ->
  Forall (fun entry => 0 < snd entry) entries ->
  Forall (fun entry => 0 < snd entry) (Map_entries larger) ->
  acc + foldr (fun entry sum => snd entry * weight_in larger (fst entry) + sum)
          0 entries < 2 ^ 53 ->
  foldl
    (fun dot '(token, weight) =>
       match larger !! token with
       | Some otherWeight =>
           if otherWeight =? 0 then dot
           else (dot + number_of_Z weight * number_of_Z otherWeight)%float
       | None => dot
       end)
    (number_of_Z acc) entries
  = number_of_Z
      (acc + foldr (fun entry sum =>
                      snd entry * weight_in larger (fst entry) + sum) 0 entries).
Proof.
  induction entries as [|[t w] entries IH]; intros acc Ha F G B.
  - simpl. rewrite Z.add_0_r. reflexivity.
  - inversion F as [|? ? Hw F']; subst. simpl in Hw.
    pose proof (exact_dot_nonneg larger entries F' G) as P.
    pose proof (weight_in_positive larger t G) as Q.
    simpl foldr in *. simpl fst in *. simpl snd in *. simpl foldl.
    unfold weight_in in *.
    destruct (larger !! t) as [ow|] eqn:E; simpl default in *.
    + destruct (Z.eqb_spec ow 0) as [->|Hne].
      * rewrite IH by (try assumption; lia). f_equal. lia.
      * assert (0 < ow) by lia.
        rewrite mul_small, add_small by nia.
        rewrite IH by (try assumption; nia). f_equal. lia.
    + rewrite IH by (try assumption; lia). f_equal. lia.
Qed.

Lemma dotProduct_exact (smaller larger : JsMap) :
  Forall (fun entry => 0 < snd entry) (Map_entries smaller) ->
  Forall (fun entry => 0 < snd entry) (Map_entries larger) ->
  exact_dot smaller larger < 2 ^ 53 ->
  dotProduct smaller larger = number_of_Z (exact_dot smaller larger).
Proof.
  intros F G B. unfold dotProduct, exact_dot.
  change 0%float with (number_of_Z 0).
  rewrite (dotProduct_exact_from larger (Map_entries smaller) 0); try assumption;
    try reflexivity; lia.
Qed.

Lemma magnitude_exact_from values : forall acc,
  0 <= acc ->
  Forall (fun value => 0 < value) values ->
  acc + foldr (fun value sum => value * value + sum) 0 values < 2 ^ 53 ->
  foldl
    (fun magnitude value =>
       (magnitude + number_of_Z value * number_of_Z value)%float)
    (number_of_Z acc) values
  = number_of_Z (acc + foldr (fun value sum => value * value + sum) 0 values).
Proof.
  induction values as [|v values IH]; intros acc Ha F B.
  - simpl. rewrite Z.add_0_r. reflexivity.
  - inversion F as [|? ? Hv F']; subst.
    assert (P : 0 <= foldr (fun value sum => value * value + sum) 0 values).
    { clear -F'. induction F'; simpl; nia. }
    simpl foldr in *. simpl foldl.
    rewrite mul_small, add_small by nia.
    rewrite IH by (try assumption; nia). f_equal. lia.
Qed.

Lemma magnitude_exact (v : JsMap) :
  Forall (fun entry => 0 < snd entry) (Map_entries v) ->
  exact_magnitude v < 2 ^ 53 ->
  magnitude v = number_of_Z (exact_magnitude v).
Proof.
  intros F B. unfold magnitude, exact_magnitude.
  change 0%float with (number_of_Z 0).
  rewrite (magnitude_exact_from (Map_values v) 0); try reflexivity; try lia.
  - unfold Map_values. apply List.Forall_map. exact F.
  - exact B.
Qed.

Lemma exact_dot_nil_r entries :
  foldr (fun entry sum => snd entry * weight_in ∅ (fst entry) + sum) 0 entries
  = 0.
Proof. induction entries as [|[t w] entries IH]; simpl; [reflexivity|]. rewrite IH. unfold weight_in. simpl. lia. Qed.

Lemma exact_dot_cons_r entries : forall other t w,
  NoDup (List.map fst entries) ->
  get_entry other t = None ->
  foldr (fun entry sum =>
           snd entry * weight_in {| Map_entries := (t, w) :: other |} (fst entry)
           + sum) 0 entries
  = w * weight_in {| Map_entries := entries |} t
    + foldr (fun entry sum =>
               snd entry * weight_in {| Map_entries := other |} (fst entry) + sum)
        0 entries.
Proof.
  unfold weight_in, lookup, Map_lookup. cbn [Map_entries].
  induction entries as [|[t' w'] entries IH]; intros other t w N Ht.
  - simpl. lia.
  - inversion N as [|? ? Hn N']; subst. rewrite list_elem_of_In in Hn.
    cbn [foldr]. rewrite (IH other t w N' Ht). cbn [fst snd get_entry].
    destruct (decide (t = t')) as [<-|Hne].
    + rewrite !bool_decide_eq_true_2 by reflexivity.
      rewrite (get_entry_None entries t Hn), Ht. simpl. lia.
    + rewrite (bool_decide_eq_false_2 (t = t')) by exact Hne.
      rewrite (bool_decide_eq_false_2 (t' = t)) by congruence. lia.
Qed.

(** Over the integers the dot product does not depend on which of the two
    vectors the loop walks. *)
Lemma exact_dot_comm (a b : JsMap) :
  NoDup (List.map fst (Map_entries a)) ->
  NoDup (List.map fst (Map_entries b)) ->
  exact_dot a b = exact_dot b a.
Proof.
  destruct a as [ea], b as [eb]. unfold exact_dot. simpl Map_entries.
  intros Na Nb. induction ea as [|[t w] ea IH]; simpl.
  - symmetry. apply exact_dot_nil_r.
  - inversion Na as [|? ? Hn Na']; subst. rewrite list_elem_of_In in Hn.
    rewrite (exact_dot_cons_r eb ea t w Nb (get_entry_None ea t Hn)).
    rewrite (IH Na'). reflexivity.
Qed.

(** C8, amended.  [cosineSimilarity] is symmetric for two vectors of
    different sizes, and for two vectors of counts (no key twice, every count
    at least 1) whose dot product over the integers is below 2^53, so that no
    addition of the loop rounds; the loop walks the smaller of the two
    vectors, or [b] when the sizes are equal. *)
Theorem cosineSimilarity_symmetric (a b : JsMap) :
  size a <> size b \/ (Map_wf a /\ Map_wf b /\ exact_dot a b < 2 ^ 53) ->
  cosineSimilarity a b = cosineSimilarity b a.
Proof.
  intros H. unfold cosineSimilarity.
  rewrite (orb_comm (size b =? 0)%nat).
  destruct ((size a =? 0)%nat || (size b =? 0)%nat); [reflexivity|].
  rewrite (mul_comm (sqrt (magnitude b))).
  destruct (_ =? 0)%float; [reflexivity|].
  destruct (Nat.ltb_spec (size a) (size b)), (Nat.ltb_spec (size b) (size a));
    try lia; try reflexivity.
  destruct H as [H|([Na Fa] & [Nb Fb] & B)]; [lia|].
  rewrite (dotProduct_exact a b), (dotProduct_exact b a); try assumption.
  - rewrite (exact_dot_comm a b Na Nb). reflexivity.
  - rewrite <- (exact_dot_comm a b Na Nb). exact B.
Qed.

(** The amended claim on scenario 3, where the two vectors have four
    entries each. *)
Lemma cosineSimilarity_symmetric_witness :
  cosineSimilarity (buildVector (Some abcd_text))
    (buildVector (Some (js "a b x y")))
  = cosineSimilarity (buildVector (Some (js "a b x y")))
      (buildVector (Some abcd_text)).
Proof.
  apply (cosineSimilarity_symmetric (buildVector (Some abcd_text))
           (buildVector (Some (js "a b x y")))).
  right. unfold Map_wf.
  repeat split; apply (bool_decide_unpack _); vm_compute; exact I.
Defined.

(** C8 as stated fails: for the vectors of two texts with the same words,
    one word occurring 94906266 times and two words once, the additions of
    the loop round in one order of the entries and not in the other. *)
Lemma cosineSimilarity_not_symmetric :
  cosineSimilarity heavy_first heavy_last = 1%float /\
  cosineSimilarity heavy_last heavy_first = 0.99999999999999978%float /\
  (cosineSimilarity heavy_last heavy_first
   <? cosineSimilarity heavy_first heavy_last)%float = true /\
  Map_wf heavy_first /\ Map_wf heavy_last /\
  size heavy_first = size heavy_last.
Proof.
  split; [vm_compute; reflexivity|]. split; [vm_compute; reflexivity|].
  split; [vm_compute; reflexivity|].
  unfold Map_wf.
  repeat split; apply (bool_decide_unpack _); vm_compute; exact I.
Qed.

(** [Math.min(1, y)] is at most 1, unless it is NaN. *)
Lemma Math_min_le x y :
  is_nan (Math_min x y) = false -> (Math_min x y <=? x)%float = true.
Proof.
  unfold Math_min.
  destruct (is_nan x) eqn:Nx; [discriminate|].
  destruct (is_nan y) eqn:Ny; [discriminate|]. simpl. intros _.
  destruct (x <? y)%float eqn:Lxy; [apply leb_refl, Nx|].
  destruct (y <? x)%float eqn:Lyx; [apply ltb_leb, Lyx|].
  destruct (get_sign x); [apply leb_refl, Nx|].
  apply ltb_false_leb; assumption.
Qed.

Lemma cosineSimilarity_le_1 (a b : JsMap) :
  (0 <? cosineSimilarity a b)%float = true ->
  (cosineSimilarity a b <=? 1)%float = true.
Proof.
  unfold cosineSimilarity.
  destruct ((size a =? 0)%nat || (size b =? 0)%nat); [discriminate|].
  destruct (_ =? 0)%float; [discriminate|].
  intros H. apply Math_min_le. exact (proj2 (ltb_not_nan _ _ H)).
Qed.

(** ** The loop over the peers *)

Section PeerLoop.
Variable vector : JsMap.
Variable hash : option jsstring.

Lemma peerScore_le_1 peer :
  (0 <? peerScore vector hash peer)%float = true ->
  (peerScore vector hash peer <=? 1)%float = true.
Proof.
  unfold peerScore.
  destruct (truthy hash && truthy (peer_contentHash peer)
            && strict_eq hash (peer_contentHash peer)); [reflexivity|].
  destruct (truthy (peer_normalizedText peer)); [|discriminate].
  apply cosineSimilarity_le_1.
Qed.

Lemma scanPeers_spec peers : forall acc ms,
  scanPeers vector hash peers acc = Ok ms ->
  exists entries,
    ms = acc ++ entries /\
    Forall2 (recorded vector hash)
      (scoring_peers vector hash peers) entries.
Proof.
  induction peers as [|peer peers IH]; intros acc ms H; simpl in H.
  - injection H as <-. exists []. rewrite app_nil_r. split; constructor.
  - unfold scoring_peers. simpl.
    destruct (0 <? peerScore vector hash peer)%float.
    + destruct (toObjectId (_id peer)) as [oid|e] eqn:E; [|discriminate].
      destruct (IH _ _ H) as (entries & -> & F).
      eexists (_ :: entries). rewrite <- app_assoc. split; [reflexivity|].
      constructor; [|exact F]. split; [exact E | reflexivity].
    + exact (IH _ _ H).
Qed.

Lemma scanPeers_returns peers : forall acc,
  Forall (fun peer => exists oid, toObjectId (_id peer) = Ok oid)
    (scoring_peers vector hash peers) ->
  exists ms, scanPeers vector hash peers acc = Ok ms.
Proof.
  unfold scoring_peers.
  induction peers as [|peer peers IH]; intros acc H; simpl in *.
  - eauto.
  - destruct (0 <? peerScore vector hash peer)%float.
    + inversion H as [|? ? [oid E] H']; subst. rewrite E. apply IH, H'.
    + apply IH, H.
Qed.

Lemma scoring_peers_positive peers :
  Forall (fun peer => (0 <? peerScore vector hash peer)%float = true)
    (scoring_peers vector hash peers).
Proof.
  apply List.Forall_forall. intros p Hp. apply List.filter_In in Hp. tauto.
Qed.

Lemma scoring_peers_sublist peers :
  sublist (scoring_peers vector hash peers) peers.
Proof.
  unfold scoring_peers. induction peers as [|peer peers IH]; simpl.
  - constructor.
  - destruct (0 <? peerScore vector hash peer)%float; constructor; exact IH.
Qed.

(** Every recorded score is a number of the unit interval. *)
Lemma recorded_unit peers entries :
  Forall2 (recorded vector hash)
    (scoring_peers vector hash peers) entries ->
  Forall (fun m => unit_interval (score m) = true) entries.
Proof.
  intros F. pose proof (scoring_peers_positive peers) as P.
  induction F as [|p m ps ms [_ Hs] F IH]; constructor.
  - inversion P; subst. rewrite Hs.
    apply Number_toFixed4_unit; [assumption|]. apply peerScore_le_1. assumption.
  - apply IH. inversion P; assumption.
Qed.

(** Every recorded score is the number of a decimal with four places between
    0 and 1. *)
Lemma recorded_decimal peers entries :
  Forall2 (recorded vector hash) (scoring_peers vector hash peers) entries ->
  Forall (fun m => exists n, 0 <= n <= 10000 /\ score m = Number_of_units n)
    entries.
Proof.
  intros F. pose proof (scoring_peers_positive peers) as P.
  induction F as [|p m ps ms [_ Hs] F IH]; constructor.
  - inversion P; subst. rewrite Hs.
    apply Number_toFixed4_units; [assumption|]. apply peerScore_le_1. assumption.
  - apply IH. inversion P; assumption.
Qed.

(** A peer with neither a hash nor a text gets the score 0. *)
Lemma peerScore_nothing_to_compare peer :
  truthy (peer_contentHash peer) = false ->
  truthy (peer_normalizedText peer) = false ->
  peerScore vector hash peer = 0%float.
Proof.
  intros Hh Ht. unfold peerScore. rewrite Hh, Ht, andb_false_r. reflexivity.
Qed.

End PeerLoop.

(** ** Array.prototype.sort with the comparator [b.score - a.score] *)

Lemma sort_insert_perm {A} (comparefn : A -> A -> float) x l :
  Permutation (sort_insert comparefn x l) (x :: l).
Proof.
  induction l as [|y l IH]; simpl; [reflexivity|].
  destruct (0 <? comparefn x y)%float; [|reflexivity].
  rewrite IH. apply perm_swap.
Qed.

Lemma Array_sort_perm {A} (comparefn : A -> A -> float) l :
  Permutation (Array_sort comparefn l) l.
Proof.
  induction l as [|x l IH]; simpl; [reflexivity|].
  rewrite sort_insert_perm. constructor. exact IH.
Qed.

Lemma sort_insert_descending x l :
  unit_interval (score x) = true ->
  Forall (fun m => unit_interval (score m) = true) l ->
  descending l -> descending (sort_insert by_score_descending x l).
Proof.
  intros Ux Ul S. induction S as [|y l S IH Hy]; simpl.
  - repeat constructor.
  - inversion Ul as [|? ? Uy Ul']; subst.
    unfold by_score_descending at 1. rewrite (sub_pos_ltb _ _ Ux Uy).
    unfold unit_interval in Ux, Uy.
    apply andb_true_iff in Ux as [Ux0 Ux1], Uy as [Uy0 Uy1].
    destruct (score x <? score y)%float eqn:L.
    + constructor; [apply IH, Ul'|].
      eapply Permutation_Forall; [symmetry; apply sort_insert_perm|].
      constructor; [apply ltb_leb, L | exact Hy].
    + assert (Lyx : (score y <=? score x)%float = true).
      { apply ltb_false_leb; [| |exact L].
        - exact (proj2 (leb_not_nan _ _ Ux0)).
        - exact (proj2 (leb_not_nan _ _ Uy0)). }
      constructor; [constructor; assumption|].
      constructor; [exact Lyx|].
      eapply List.Forall_impl; [|exact Hy].
      intros m Hm. exact (leb_trans _ _ _ Hm Lyx).
Qed.

Lemma Array_sort_descending l :
  Forall (fun m => unit_interval (score m) = true) l ->
  descending (Array_sort by_score_descending l).
Proof.
  induction 1 as [|x l Ux Ul IH]; simpl; [constructor|].
  apply sort_insert_descending; [exact Ux| |exact IH].
  eapply Permutation_Forall; [symmetry; apply Array_sort_perm | exact Ul].
Qed.

(** ** buildSimilarityReport *)

(** What a returned report is made of: either the short-circuit report of a
    falsy text, or the sorted entries of the peers with a score above 0. *)
Lemma buildSimilarityReport_inv text hash peers r :
  buildSimilarityReport text hash peers = Ok r ->
  (truthy text = false /\
   r = {| report_score := 0; category := none; matches := [];
          contentHash := hash; normalizedText := text;
          extractedText := None |}) \/
  (truthy text = true /\
   exists entries,
     Forall2 (recorded (buildVector text) hash)
       (scoring_peers (buildVector text) hash peers) entries /\
     r = {| report_score :=
              match Array_sort by_score_descending entries with
              | m :: _ => score m
              | [] => 0%float
              end;
            category :=
              bucketScore
                match Array_sort by_score_descending entries with
                | m :: _ => score m
                | [] => 0%float
                end;
            matches := Array_sort by_score_descending entries;
            contentHash := hash; normalizedText := text;
            extractedText := None |}).
Proof.
  unfold buildSimilarityReport.
  destruct (truthy text); simpl.
  - intros H. right. split; [reflexivity|].
    destruct (scanPeers _ _ _ _) as [ms|e] eqn:E; [|discriminate].
    apply scanPeers_spec in E as (entries & -> & F).
    injection H as <-. exists entries. split; [exact F | reflexivity].
  - intros H. injection H as <-. left. split; reflexivity.
Qed.

Lemma buildSimilarityReport_well_formed text hash peers r :
  buildSimilarityReport text hash peers = Ok r -> well_formed r.
Proof.
  intros H. unfold well_formed.
  apply buildSimilarityReport_inv in H as [[_ ->]|(_ & entries & F & ->)]; simpl.
  - repeat split; [constructor | intros m []].
  - pose proof (recorded_unit _ _ _ _ F) as U.
    pose proof (Array_sort_descending entries U) as S.
    assert (U' : Forall (fun m => unit_interval (score m) = true)
                   (Array_sort by_score_descending entries))
      by (eapply Permutation_Forall; [symmetry; apply Array_sort_perm | exact U]).
    repeat split; [exact S|].
    destruct (Array_sort by_score_descending entries) as [|top rest];
      intros m Hm; [destruct Hm|].
    inversion S as [|? ? _ Hrest]; subst. inversion U' as [|? ? Utop _]; subst.
    destruct Hm as [<-|Hm].
    + apply leb_refl. apply andb_true_iff in Utop as [U0 _].
      exact (proj2 (leb_not_nan _ _ U0)).
    + rewrite List.Forall_forall in Hrest. apply Hrest, Hm.
Qed.

(** C2.  Every report that [buildSimilarityReport] returns has its matches
    in descending order of score; its score is the score of the first match,
    which is the largest of all, or 0 when there is no match; and its category
    is [bucketScore] of that score. *)
Theorem report_invariants text hash peers r :
  buildSimilarityReport text hash peers = Ok r ->
  descending (matches r) /\
  report_score r = match matches r with
                   | m :: _ => score m
                   | [] => 0%float
                   end /\
  (forall m, In m (matches r) -> (score m <=? report_score r)%float = true) /\
  category r = bucketScore (report_score r).
Proof. apply buildSimilarityReport_well_formed. Qed.

(** The claim on scenario 3 with three stored submissions. *)
Lemma report_invariants_witness :
  descending (matches abcd_report) /\
  report_score abcd_report = match matches abcd_report with
                             | m :: _ => score m
                             | [] => 0%float
                             end /\
  (forall m, In m (matches abcd_report) ->
             (score m <=? report_score abcd_report)%float = true) /\
  category abcd_report = bucketScore (report_score abcd_report).
Proof.
  apply (report_invariants (Some abcd_text) (Some abcd_hash) abcd_peers).
  vm_compute. reflexivity.
Defined.

(** C10.  The [contentHash] and [normalizedText] of a returned report are the
    arguments of the call, on the short-circuit path and on the other. *)
Theorem report_passes_through text hash peers r :
  buildSimilarityReport text hash peers = Ok r ->
  contentHash r = hash /\
  normalizedText r = text.
Proof.
  intros H.
  apply buildSimilarityReport_inv in H as [[_ ->]|(_ & entries & _ & ->)];
    split; reflexivity.
Qed.

(** The claim on scenario 3, which takes the path through the loop. *)
Lemma report_passes_through_witness :
  contentHash abcd_report = Some abcd_hash /\
  normalizedText abcd_report = Some abcd_text.
Proof.
  apply (report_passes_through (Some abcd_text) (Some abcd_hash) abcd_peers).
  vm_compute. reflexivity.
Defined.

(** C4.  With an absent text the report has score 0, category ["none"] and no
    match, and carries the hash and the absent text it was given, whatever the
    hash and the peers are: no peer is looked at. *)
Theorem absent_text_report (hash : option jsstring)
    (peers : list ExistingSubmission) :
  buildSimilarityReport None hash peers
  = Ok {| report_score := 0; category := none; matches := [];
          contentHash := hash; normalizedText := None;
          extractedText := None |}.
Proof. reflexivity. Qed.




Lemma Forall2_and_l {A B} (P : A -> Prop) (R : A -> B -> Prop) l k :
  Forall P l -> Forall2 R l k -> Forall2 (fun a b => P a /\ R a b) l k.
Proof.
  intros HP HR. induction HR; inversion HP; subst; constructor; auto.
Qed.

(** C5, amended.  In every returned report each match has a score between 0
    and 1 that is the number of a decimal with four places; the matches are,
    in another order, one entry for each peer that the loop gave a score above
    0 (none when the text is falsy), each carrying the identifier of its peer
    and that score rounded to four places.  The rounded score itself can be
    0. *)
Theorem matches_are_rounded_scores text hash peers r :
  buildSimilarityReport text hash peers = Ok r ->
  (forall m, In m (matches r) ->
     unit_interval (score m) = true /\
     exists n, 0 <= n <= 10000 /\ score m = Number_of_units n) /\
  exists selected entries,
    selected = (if truthy text
                then scoring_peers (buildVector text) hash peers
                else []) /\
    sublist selected peers /\
    Permutation (matches r) entries /\
    Forall2
      (fun peer m =>
         (0 <? peerScore (buildVector text) hash peer)%float = true /\
         recorded (buildVector text) hash peer m)
      selected entries.
Proof.
  intros H.
  apply buildSimilarityReport_inv in H as [[Ht ->]|(Ht & entries & F & ->)];
    rewrite Ht; simpl.
  - split; [intros m []|].
    exists [], []. repeat split; try constructor. apply sublist_nil_l.
  - pose proof (recorded_decimal _ _ _ _ F) as D.
    split.
    + intros m Hm.
      apply (Permutation_in _ (Array_sort_perm by_score_descending entries)) in Hm.
      rewrite List.Forall_forall in D. destruct (D m Hm) as (n & Hn & E).
      split; [|eauto]. rewrite E. apply Number_of_units_unit, Hn.
    + exists (scoring_peers (buildVector text) hash peers), entries.
      split; [reflexivity|]. split; [apply scoring_peers_sublist|].
      split; [apply Array_sort_perm|].
      apply Forall2_and_l; [apply scoring_peers_positive | exact F].
Qed.

(** The amended claim on scenario 3. *)
Lemma matches_are_rounded_scores_witness :
  (forall m, In m (matches abcd_report) ->
     unit_interval (score m) = true /\
     exists n, 0 <= n <= 10000 /\ score m = Number_of_units n) /\
  exists selected entries,
    selected = (if truthy (Some abcd_text)
                then scoring_peers (buildVector (Some abcd_text))
                       (Some abcd_hash) abcd_peers
                else []) /\
    sublist selected abcd_peers /\
    Permutation (matches abcd_report) entries /\
    Forall2
      (fun peer m =>
         (0 <? peerScore (buildVector (Some abcd_text)) (Some abcd_hash) peer)%float
         = true /\
         recorded (buildVector (Some abcd_text)) (Some abcd_hash) peer m)
      selected entries.
Proof.
  apply (matches_are_rounded_scores (Some abcd_text) (Some abcd_hash) abcd_peers).
  vm_compute. reflexivity.
Defined.

(** C5 as stated fails: a text of 143 words against a stored text of 143
    words that shares one of them has the cosine 1/20165, which is above 0
    and is stored as 0.0000; the report lists a match of score 0. *)
Lemma match_with_score_zero :
  exists r m,
    buildSimilarityReport (Some (a_then "c")) (Some a_then_c_hash)
      [a_then_b_peer] = Ok r /\
    In m (matches r) /\
    (0 <? score m)%float = false.
Proof.
  eexists _, _. split; [vm_compute; reflexivity|].
  split; [left; reflexivity | reflexivity].
Qed.

(** C6, amended.  [buildSimilarityReport] returns a report, and one that
    satisfies the invariants, for every text (absent or not), every hash
    (absent or not) and every list of peers (empty or not, with or without
    hash and text) in which each peer that the loop gives a score above 0 has
    an identifier that is an ObjectId or a string the ObjectId constructor
    accepts. *)
Theorem returns_a_report text hash peers :
  (truthy text = true ->
   Forall (fun peer => exists oid, toObjectId (_id peer) = Ok oid)
     (scoring_peers (buildVector text) hash peers)) ->
  exists r, buildSimilarityReport text hash peers = Ok r /\ well_formed r.
Proof.
  intros H.
  assert (R : exists r, buildSimilarityReport text hash peers = Ok r).
  { unfold buildSimilarityReport. destruct (truthy text); simpl; [|eauto].
    destruct (scanPeers_returns _ _ _ [] (H eq_refl)) as [ms ->]. eauto. }
  destruct R as [r R]. exists r. split; [exact R|].
  exact (buildSimilarityReport_well_formed _ _ _ _ R).
Qed.

(** The amended claim on scenario 3. *)
Lemma returns_a_report_witness :
  exists r,
    buildSimilarityReport (Some abcd_text) (Some abcd_hash) abcd_peers = Ok r /\
    well_formed r.
Proof.
  apply (returns_a_report (Some abcd_text) (Some abcd_hash) abcd_peers).
  intros _. vm_compute. repeat constructor; eexists; reflexivity.
Defined.

(** C6 as stated fails: a peer named ["peer-1"] that shares words with the
    submission makes the call throw. *)
Lemma ill_named_peer_throws :
  buildSimilarityReport (Some abcd_text) (Some abcd_hash) [ill_named_peer]
  = Throw BSONError.
Proof. vm_compute. reflexivity. Qed.

(** ** normalizeText *)

Lemma is_az09_facts c :
  is_az09 c = true ->
  is_space c = false /\ (c =? 32)%N = false /\ lower_unit c = [c].
Proof.
  unfold is_az09, is_space, lower_unit. intros H.
  assert (R : (48 <= c <= 57 \/ 97 <= c <= 122)%N).
  { apply orb_true_iff in H as [H|H]; apply andb_true_iff in H as [H1 H2];
      apply N.leb_le in H1, H2; lia. }
  repeat match goal with
         | |- context [(?a <=? ?b)%N] => destruct (N.leb_spec a b); try lia
         | |- context [(?a =? ?b)%N] => destruct (N.eqb_spec a b); try lia
         end; simpl; auto.
Qed.

Lemma not_space_not_32 c : is_space c = false -> (c =? 32)%N = false.
Proof.
  intros H. destruct (N.eqb_spec c 32) as [->|]; [discriminate | reflexivity].
Qed.

(** After the first replacement only [a-z0-9] and white space are left. *)
Lemma replace_runs_not_az09_space s : forall in_run,
  Forall (fun c => is_az09 c || is_space c = true)
    (replace_runs not_az09_space in_run s).
Proof.
  induction s as [|c s IH]; intros in_run; simpl; [constructor|].
  unfold not_az09_space at 1.
  destruct (is_az09 c || is_space c) eqn:E; simpl.
  - constructor; [exact E | apply IH].
  - destruct in_run; [apply IH | constructor; [reflexivity | apply IH]].
Qed.

(** After the second replacement the words are single-spaced. *)
Lemma replace_runs_is_space_spaced s : forall in_run,
  Forall (fun c => is_az09 c || is_space c = true) s ->
  spaced in_run (replace_runs is_space in_run s) = true.
Proof.
  induction s as [|c s IH]; intros in_run F; simpl; [reflexivity|].
  inversion F as [|? ? Hc F']; subst.
  destruct (is_space c) eqn:E.
  - destruct in_run; [apply IH, F'|]. simpl. apply IH, F'.
  - simpl. rewrite (not_space_not_32 c E). rewrite ?E, orb_false_r in Hc.
    rewrite Hc. apply IH, F'.
Qed.

Lemma spaced_weaken s : spaced true s = true -> spaced false s = true.
Proof.
  destruct s as [|c s]; simpl; [reflexivity|].
  destruct (c =? 32)%N; [discriminate | auto].
Qed.

Lemma trimStart_spaced s : forall b,
  spaced b s = true -> spaced true (trimStart s) = true.
Proof.
  induction s as [|c s IH]; intros b H; simpl in *; [reflexivity|].
  destruct (N.eqb_spec c 32) as [->|Hc].
  - simpl. apply andb_true_iff in H as [_ H]. apply (IH true H).
  - apply andb_true_iff in H as [Ha H].
    destruct (is_az09_facts c Ha) as (-> & E & _).
    simpl. rewrite E, Ha. exact H.
Qed.

Lemma trimEnd_spaced s : forall b,
  spaced b s = true -> spaced b (trimEnd s) = true.
Proof.
  induction s as [|c s IH]; intros b H; simpl in *; [reflexivity|].
  destruct (N.eqb_spec c 32) as [->|Hc].
  - apply andb_true_iff in H as [Hb H]. specialize (IH true H).
    destruct (trimEnd s) as [|x rest]; [reflexivity|].
    simpl in *. rewrite Hb. exact IH.
  - apply andb_true_iff in H as [Ha H]. specialize (IH false H).
    destruct (is_az09_facts c Ha) as (Es & E & _).
    destruct (trimEnd s) as [|x rest]; rewrite ?Es; simpl in *;
      rewrite E, Ha; [reflexivity | exact IH].
Qed.

Lemma trimEnd_idempotent s : trimEnd (trimEnd s) = trimEnd s.
Proof.
  induction s as [|c s IH]; simpl; [reflexivity|].
  destruct (trimEnd s) as [|x rest] eqn:E.
  - destruct (is_space c) eqn:Ec; simpl; [reflexivity|]. rewrite Ec. reflexivity.
  - change (trimEnd (c :: x :: rest)) with
      (match trimEnd (x :: rest) with
       | [] => if is_space c then [] else [c]
       | r => c :: r
       end).
    rewrite IH. reflexivity.
Qed.

(** On single-spaced words without a space in front, everything before
    [trimEnd] is the identity. *)
Lemma toLowerCase_spaced s : forall b, spaced b s = true -> toLowerCase s = s.
Proof.
  induction s as [|c s IH]; intros b H; simpl in *; [reflexivity|].
  destruct (N.eqb_spec c 32) as [->|Hc].
  - apply andb_true_iff in H as [_ H]. rewrite (IH true H). reflexivity.
  - apply andb_true_iff in H as [Ha H].
    destruct (is_az09_facts c Ha) as (_ & _ & ->). rewrite (IH false H). reflexivity.
Qed.

Lemma replace_runs_not_az09_space_spaced s : forall b in_run,
  spaced b s = true -> replace_runs not_az09_space in_run s = s.
Proof.
  induction s as [|c s IH]; intros b in_run H; simpl in *; [reflexivity|].
  destruct (N.eqb_spec c 32) as [->|Hc].
  - apply andb_true_iff in H as [_ H]. simpl. rewrite (IH true false H). reflexivity.
  - apply andb_true_iff in H as [Ha H].
    unfold not_az09_space at 1. rewrite Ha. simpl.
    rewrite (IH false false H). reflexivity.
Qed.

Lemma replace_runs_is_space_fixed s : forall b,
  spaced b s = true -> replace_runs is_space b s = s.
Proof.
  induction s as [|c s IH]; intros b H; simpl in *; [reflexivity|].
  destruct (N.eqb_spec c 32) as [->|Hc].
  - apply andb_true_iff in H as [Hb H]. simpl.
    destruct b; [discriminate|]. rewrite (IH true H). reflexivity.
  - apply andb_true_iff in H as [Ha H].
    destruct (is_az09_facts c Ha) as (-> & _ & _). rewrite (IH false H). reflexivity.
Qed.

Lemma trimStart_fixed s : spaced true s = true -> trimStart s = s.
Proof.
  destruct s as [|c s]; simpl; [reflexivity|].
  destruct (N.eqb_spec c 32) as [->|Hc]; [discriminate|].
  intros H. apply andb_true_iff in H as [Ha _].
  destruct (is_az09_facts c Ha) as (-> & _ & _). reflexivity.
Qed.

Lemma canonical_form_spaced s : spaced true (canonical_form s) = true.
Proof.
  unfold canonical_form, trim.
  apply trimEnd_spaced, (trimStart_spaced _ false).
  apply replace_runs_is_space_spaced, replace_runs_not_az09_space.
Qed.

Lemma canonical_form_idempotent s :
  canonical_form (canonical_form s) = canonical_form s.
Proof.
  pose proof (canonical_form_spaced s) as H.
  assert (E : trimEnd (canonical_form s) = canonical_form s)
    by apply trimEnd_idempotent.
  revert H E. generalize (canonical_form s). intros y H E.
  unfold canonical_form, trim.
  rewrite (toLowerCase_spaced y true H).
  rewrite (replace_runs_not_az09_space_spaced y true false H).
  rewrite (replace_runs_is_space_fixed y false (spaced_weaken y H)).
  rewrite (trimStart_fixed y H). exact E.
Qed.

Lemma normalizeText_canonical (x : option jsstring) (y : jsstring) :
  normalizeText x = Some y ->
  y <> [] /\ exists s, x = Some s /\ y = canonical_form s.
Proof.
  unfold normalizeText. destruct (truthy x) eqn:T; simpl; [|discriminate].
  fold (canonical_form (default [] x)).
  destruct (canonical_form (default [] x)) as [|c rest] eqn:E; simpl;
    [discriminate|].
  intros H. injection H as <-. split; [discriminate|].
  destruct x as [s|]; [|discriminate]. exists s. simpl in E. auto.
Qed.

Lemma normalizeText_fixed (y : jsstring) :
  y <> [] -> canonical_form y = y -> normalizeText (Some y) = Some y.
Proof.
  intros Hy E. destruct y as [|c rest]; [contradiction|].
  change (normalizeText (Some (c :: rest)))
    with (if (0 <? length (canonical_form (c :: rest)))%nat
          then Some (canonical_form (c :: rest)) else None).
  rewrite E. reflexivity.
Qed.

(** C7.  [normalizeText] is idempotent on every result that is not absent;
    an absent input and the input of three spaces give absent,
    ["Hi, World!!"] gives ["hi world"], and no result is the empty string. *)
Theorem normalizeText_idempotent :
  (forall x y, normalizeText x = Some y -> normalizeText (Some y) = Some y) /\
  normalizeText None = None /\
  normalizeText (Some (js "   ")) = None /\
  normalizeText (Some (js "Hi, World!!")) = Some (js "hi world") /\
  (forall x, normalizeText x <> Some []).
Proof.
  split; [|split; [|split; [|split]]]; try reflexivity.
  - intros x y H. apply normalizeText_canonical in H as (Hy & s & -> & ->).
    apply normalizeText_fixed; [exact Hy | apply canonical_form_idempotent].
  - intros x H. apply normalizeText_canonical in H as [H _]. contradiction.
Qed.

(** The claim on the result of ["Hi, World!!"]. *)
Lemma normalizeText_idempotent_witness :
  normalizeText (Some (js "hi world")) = Some (js "hi world").
Proof.
  exact (proj1 normalizeText_idempotent (Some (js "Hi, World!!")) (js "hi world")
           eq_refl).
Defined.

(** ** The scenarios of the specification, by evaluation *)

(** Scenario 3: ["a b c d"] against ["a b x y"] without a hash match has the
    vectors [{a:1,b:1,c:1,d:1}] and [{a:1,b:1,x:1,y:1}], the dot product 2,
    both norms 2, the score 0.5 and the category ["low"]. *)
Example scenario_3 :
  dotProduct (buildVector (Some (js "a b x y"))) (buildVector (Some abcd_text))
  = 2%float /\
  magnitude (buildVector (Some abcd_text)) = 4%float /\
  exists r,
    buildSimilarityReport (Some abcd_text) (Some abcd_hash) [abxy_peer] = Ok r /\
    report_score r = 0.5%float /\ category r = low /\
    List.map score (matches r) = [0.5%float].
Proof.
  split; [vm_compute; reflexivity|]. split; [vm_compute; reflexivity|].
  eexists. split; [vm_compute; reflexivity|]. repeat split.
Qed.

(** With three peers the report lists the two that share words, the closer
    one first. *)
Example scenario_3_ranked :
  List.map score (matches abcd_report) = [0.866%float; 0.5%float] /\
  report_score abcd_report = 0.866%float /\
  category abcd_report = high.
Proof. repeat split. Qed.

(** [Number(x.toFixed(4))] on a few values: a tie goes up, and a value below
    0.00005 becomes 0. *)
Example Number_toFixed4_values :
  Number_toFixed4 0.12345 = 0.1235%float /\
  Number_toFixed4 0.86602540378443871 = 0.866%float /\
  Number_toFixed4 0.5 = 0.5%float /\
  Number_toFixed4 1 = 1%float /\
  Number_toFixed4 0.00005 = 0.0001%float /\
  Number_toFixed4 4.9590875278948676e-05 = 0%float /\
  Number_toFixed4 (-0.00001) = (-0)%float /\
  Number_toFixed4 1234.56785 = 1234.5678%float /\
  Number_toFixed4 nan = nan /\
  Number_toFixed4 infinity = infinity.
Proof. repeat split. Qed.

(** [Number] of a four-place decimal is the quotient of the two integers in
    binary64. *)
Example Number_of_units_values :
  Number_of_units 1 = (1 / 10000)%float /\
  Number_of_units 1235 = (1235 / 10000)%float /\
  Number_of_units 8000 = 0.8%float /\
  Number_of_units 8660 = 0.866%float /\
  Number_of_units 10000 = 1%float.
Proof. repeat split. Qed.

(** The comparisons of [bucketScore] are all false on NaN, which is no
    score. *)
Example bucketScore_nan : bucketScore nan = none.
Proof. reflexivity. Qed.

(** The ObjectId constructor on strings. *)
Example new_ObjectId_values :
  new_ObjectId (js "65f0a1b2c3d4e5f601234567")
  = Ok {| id_bytes := [101; 240; 161; 178; 195; 212; 229; 246; 1; 35; 69; 103]%N |} /\
  new_ObjectId (js "65F0A1B2C3D4E5F601234567")
  = new_ObjectId (js "65f0a1b2c3d4e5f601234567") /\
  new_ObjectId (js "peer-1") = Throw BSONError /\
  new_ObjectId (js "65f0a1b2c3d4e5f60123456z") = Throw BSONError /\
  new_ObjectId (js "") = Throw BSONError.
Proof. repeat split. Qed.

(** ** Further properties of the specification *)

(** A vector without tokens has similarity 0 with every vector. *)
Lemma cosineSimilarity_empty (a b : JsMap) :
  size a = 0%nat \/ size b = 0%nat -> cosineSimilarity a b = 0%float.
Proof.
  intros H. unfold cosineSimilarity.
  destruct H as [-> | ->]; rewrite ?orb_true_r; reflexivity.
Qed.

Lemma cosineSimilarity_empty_witness :
  cosineSimilarity (buildVector None) (buildVector (Some abcd_text)) = 0%float.
Proof. apply cosineSimilarity_empty. left. reflexivity. Defined.

Lemma peerScore_nothing_to_compare_witness :
  peerScore (buildVector (Some abcd_text)) (Some abcd_hash)
    {| _id := inr (js "65f0a1b2c3d4e5f601234567");
       peer_normalizedText := None; peer_contentHash := None |}
  = 0%float.
Proof. apply peerScore_nothing_to_compare; reflexivity. Defined.

(** The alert of the caller, [report.score >= 0.8], fires exactly on the
    reports of category ["high"]. *)
Lemma alert_iff_high text hash peers r :
  buildSimilarityReport text hash peers = Ok r ->
  (category r = high <-> (0.8 <=? report_score r)%float = true).
Proof.
  intros H. apply buildSimilarityReport_well_formed in H as (_ & _ & _ & ->).
  destruct (bucketScore_cases (report_score r)) as (_ & _ & ->).
  change (0.8 <=? report_score r)%float
    with (threshold high <=? report_score r)%float.
  destruct (threshold high <=? report_score r)%float; [tauto|].
  split; [|discriminate].
  destruct (threshold medium <=? report_score r)%float;
    [|destruct (threshold low <=? report_score r)%float]; discriminate.
Qed.

Lemma alert_iff_high_witness :
  category abcd_report = high <-> (0.8 <=? report_score abcd_report)%float = true.
Proof.
  apply (alert_iff_high (Some abcd_text) (Some abcd_hash) abcd_peers).
  vm_compute. reflexivity.
Defined.

(** ** More on the report *)

Lemma SFleb_finite_l m1 e1 x :
  SFleb (S754_finite false m1 e1) x = true ->
  x = S754_infinity false \/ exists m2 e2, x = S754_finite false m2 e2.
Proof.
  unfold SFleb. destruct x as [s|[]| |[] m2 e2]; simpl; try discriminate; eauto.
Qed.

(** The only number that is both at most 1 and at least 1 is 1. *)
Lemma leb_antisym_1 x :
  (x <=? 1)%float = true -> (1 <=? x)%float = true -> x = 1%float.
Proof.
  intros H1 H2. apply Prim2SF_inj.
  rewrite leb_spec, Prim2SF_1 in H1, H2. rewrite Prim2SF_1.
  destruct (SFleb_finite_l _ _ _ H2) as [E|(m & e & E)]; rewrite E in *.
  - discriminate H1.
  - apply SFleb_finite in H1, H2. f_equal; lia.
Qed.

(** The score of a returned report lies between 0 and 1. *)
Lemma report_score_in_unit_interval text hash peers r :
  buildSimilarityReport text hash peers = Ok r ->
  unit_interval (report_score r) = true.
Proof.
  intros H.
  apply buildSimilarityReport_inv in H as [[_ ->]|(_ & entries & F & ->)]; simpl.
  - reflexivity.
  - pose proof (recorded_unit _ _ _ _ F) as U.
    apply (Permutation_Forall (Permutation_sym (Array_sort_perm by_score_descending entries))) in U.
    destruct (Array_sort by_score_descending entries) as [|top rest]; [reflexivity|].
    inversion U; assumption.
Qed.

Lemma report_score_in_unit_interval_witness :
  unit_interval (report_score abcd_report) = true.
Proof.
  apply (report_score_in_unit_interval (Some abcd_text) (Some abcd_hash) abcd_peers).
  vm_compute. reflexivity.
Defined.

(** When the alert of the callers fires, [report.matches[0]] exists and
    carries the score of the report. *)
Lemma alert_has_top_match text hash peers r :
  buildSimilarityReport text hash peers = Ok r ->
  (0.8 <=? report_score r)%float = true ->
  exists top rest, matches r = top :: rest /\ score top = report_score r.
Proof.
  intros H A. apply buildSimilarityReport_well_formed in H as (_ & E & _ & _).
  destruct (matches r) as [|top rest]; [|eauto].
  rewrite E in A. discriminate A.
Qed.

Lemma alert_has_top_match_witness :
  exists top rest,
    matches abcd_report = top :: rest /\ score top = report_score abcd_report.
Proof.
  apply (alert_has_top_match (Some abcd_text) (Some abcd_hash) abcd_peers);
    vm_compute; reflexivity.
Defined.

Lemma scanPeers_scoring_peers vector hash peers : forall acc,
  scanPeers vector hash (scoring_peers vector hash peers) acc
  = scanPeers vector hash peers acc.
Proof.
  unfold scoring_peers. induction peers as [|peer peers IH]; intros acc; simpl;
    [reflexivity|].
  destruct (0 <? peerScore vector hash peer)%float eqn:E; simpl; rewrite ?E.
  - destruct (toObjectId (_id peer)); [apply IH | reflexivity].
  - apply IH.
Qed.

(** The outcome of the call, report or error, depends only on the peers that
    the loop gives a score above 0: the others can be left out. *)
Lemma report_ignores_other_peers text hash peers :
  buildSimilarityReport text hash (scoring_peers (buildVector text) hash peers)
  = buildSimilarityReport text hash peers.
Proof.
  unfold buildSimilarityReport. destruct (truthy text); simpl; [|reflexivity].
  rewrite scanPeers_scoring_peers. reflexivity.
Qed.

Lemma scanPeers_throws vector hash peers : forall acc,
  scanPeers vector hash peers acc = Throw BSONError <->
  Exists (fun peer => toObjectId (_id peer) = Throw BSONError)
    (scoring_peers vector hash peers).
Proof.
  unfold scoring_peers.
  induction peers as [|peer peers IH]; intros acc; simpl.
  - split; [discriminate | intros H; inversion H].
  - destruct (0 <? peerScore vector hash peer)%float; [|apply IH].
    destruct (toObjectId (_id peer)) as [oid|[]] eqn:E.
    + rewrite IH. split; [intros H; right; exact H|].
      intros H. inversion H as [? ? H'|? ? H']; subst; [congruence | exact H'].
    + split; [intros _; left; exact E | reflexivity].
Qed.

(** The call throws exactly when the text is truthy and some peer that the
    loop gives a score above 0 has an identifier that the ObjectId
    constructor rejects. *)
Lemma report_throws_iff text hash peers :
  buildSimilarityReport text hash peers = Throw BSONError <->
  truthy text = true /\
  Exists (fun peer => toObjectId (_id peer) = Throw BSONError)
    (scoring_peers (buildVector text) hash peers).
Proof.
  unfold buildSimilarityReport. destruct (truthy text); simpl.
  - rewrite <- (scanPeers_throws (buildVector text) hash peers []).
    destruct (scanPeers (buildVector text) hash peers []) as [ms|[]].
    + split; [discriminate | intros [_ H]; discriminate H].
    + tauto.
  - split; [discriminate | intros [H _]; discriminate H].
Qed.

Lemma Forall2_In_l {A B} (R : A -> B -> Prop) l k a :
  Forall2 R l k -> In a l -> exists b, In b k /\ R a b.
Proof.
  intros F. induction F as [|x y l k Hxy F IH]; intros Ha; [destruct Ha|].
  destruct Ha as [->|Ha].
  - exists y. split; [left; reflexivity | exact Hxy].
  - destruct (IH Ha) as (b & Hb & Hab). exists b. split; [right; exact Hb | exact Hab].
Qed.

Lemma peerScore_equal_hash vector h peer :
  h <> [] -> peer_contentHash peer = Some h ->
  peerScore vector (Some h) peer = 1%float.
Proof.
  intros Hh Hp. unfold peerScore. rewrite Hp. unfold strict_eq.
  rewrite bool_decide_eq_true_2 by reflexivity.
  destruct h; [contradiction | reflexivity].
Qed.

(** A peer to which the loop gives the score 1 is among the matches with
    that score, which is then the score of the report. *)
Lemma peer_of_score_1 text hash peers peer r :
  In peer peers ->
  peerScore (buildVector text) hash peer = 1%float ->
  truthy text = true ->
  buildSimilarityReport text hash peers = Ok r ->
  report_score r = 1%float /\ category r = high /\
  exists m, In m (matches r) /\ score m = 1%float /\
            toObjectId (_id peer) = Ok (submissionId m).
Proof.
  intros Hin S Ht H.
  pose proof (report_score_in_unit_interval _ _ _ _ H) as U.
  pose proof (buildSimilarityReport_well_formed _ _ _ _ H) as (_ & _ & Hmax & Hcat).
  apply buildSimilarityReport_inv in H as [[Hf _]|(_ & entries & F & Er)];
    [congruence|].
  assert (Em : matches r = Array_sort by_score_descending entries)
    by (rewrite Er; reflexivity).
  clear Er.
  assert (Hsel : In peer (scoring_peers (buildVector text) hash peers)).
  { apply List.filter_In. split; [exact Hin|]. rewrite S. reflexivity. }
  destruct (Forall2_In_l _ _ _ _ F Hsel) as (m & Hm & Hid & Hs).
  rewrite S in Hs. change (Number_toFixed4 1) with 1%float in Hs.
  apply (Permutation_in _ (Permutation_sym (Array_sort_perm by_score_descending entries)))
    in Hm.
  rewrite <- Em in Hm.
  specialize (Hmax m Hm). rewrite Hs in Hmax.
  apply andb_true_iff in U as [_ U1].
  pose proof (leb_antisym_1 _ U1 Hmax) as E.
  split; [exact E|]. split; [rewrite Hcat, E; reflexivity|].
  exists m. auto.
Qed.

(** Among any number of peers, one with the hash of the submission makes the
    report one of score 1 and category ["high"], with that peer among the
    matches at score 1. *)
Lemma equal_hash_peer_tops_the_report text h peers peer r :
  h <> [] ->
  In peer peers ->
  peer_contentHash peer = Some h ->
  truthy text = true ->
  buildSimilarityReport text (Some h) peers = Ok r ->
  report_score r = 1%float /\ category r = high /\
  exists m, In m (matches r) /\ score m = 1%float /\
            toObjectId (_id peer) = Ok (submissionId m).
Proof.
  intros Hh Hin Hp Ht H.
  apply (peer_of_score_1 text (Some h) peers peer r); try assumption.
  apply peerScore_equal_hash; assumption.
Qed.

Lemma equal_hash_peer_tops_the_report_witness :
  exists r,
    buildSimilarityReport (Some fox_text) (Some fox_hash) (abcd_peers ++ [fox_peer])
    = Ok r /\
    report_score r = 1%float /\ category r = high /\
    exists m, In m (matches r) /\ score m = 1%float /\
              toObjectId (_id fox_peer) = Ok (submissionId m).
Proof.
  eexists. split; [vm_compute; reflexivity|].
  apply (equal_hash_peer_tops_the_report (Some fox_text) fox_hash
           (abcd_peers ++ [fox_peer]) fox_peer).
  - discriminate.
  - vm_compute. tauto.
  - reflexivity.
  - reflexivity.
  - vm_compute. reflexivity.
Defined.

(** ** createContentHash *)

Lemma hex_digit_lower d : (d < 16)%N -> is_lower_hex (hex_digit d) = true.
Proof.
  intros H. unfold hex_digit, is_lower_hex.
  destruct (N.ltb_spec d 10).
  - assert (E : ((48 <=? 48 + d) && (48 + d <=? 57))%N = true)
      by (apply andb_true_iff; split; apply N.leb_le; lia).
    rewrite E. reflexivity.
  - assert (E : ((97 <=? 87 + d) && (87 + d <=? 102))%N = true)
      by (apply andb_true_iff; split; apply N.leb_le; lia).
    rewrite E. apply orb_true_r.
Qed.

Lemma hex_word_digits w :
  length (hex_word w) = 8%nat /\ Forall (fun c => is_lower_hex c = true) (hex_word w).
Proof.
  split; [reflexivity|]. unfold hex_word.
  repeat (apply Forall_cons; split; [apply hex_digit_lower, N.mod_lt; discriminate|]).
  constructor.
Qed.

Lemma sha256_hex_digits bytes :
  length (sha256_hex bytes) = 64%nat /\
  Forall (fun c => is_lower_hex c = true) (sha256_hex bytes).
Proof.
  unfold sha256_hex.
  generalize (sha256_blocks (length (words_of_bytes (sha256_pad bytes))) sha256_H0
                (words_of_bytes (sha256_pad bytes))).
  intros s. split.
  - rewrite !length_app, !(proj1 (hex_word_digits _)). reflexivity.
  - rewrite !Forall_app. repeat split; apply hex_word_digits.
Qed.

Lemma createContentHash_truthy x : truthy (createContentHash x) = truthy x.
Proof.
  unfold createContentHash. destruct (truthy x) eqn:T; simpl; [|reflexivity].
  destruct (sha256_hex_digits (utf8_encode (default [] x))) as [L _].
  destruct (sha256_hex _); [discriminate L | reflexivity].
Qed.

(** [createContentHash] gives no hash exactly for the falsy inputs, and
    otherwise 64 digits out of [0-9a-f]; so the hash of a normalized text is
    absent exactly when the text is, and a hash that exists is truthy. *)
Lemma createContentHash_digest :
  (forall x, createContentHash x = None <-> truthy x = false) /\
  (forall x h, createContentHash x = Some h ->
     length h = 64%nat /\ Forall (fun c => is_lower_hex c = true) h) /\
  (forall x, createContentHash (normalizeText x) = None <-> normalizeText x = None) /\
  (forall x, truthy (createContentHash x) = truthy x).
Proof.
  assert (A : forall x, createContentHash x = None <-> truthy x = false).
  { intros x. unfold createContentHash. destruct (truthy x); simpl; split;
      congruence. }
  assert (B : forall x h, createContentHash x = Some h ->
     length h = 64%nat /\ Forall (fun c => is_lower_hex c = true) h).
  { intros x h. unfold createContentHash. destruct (truthy x); simpl;
      [|discriminate]. intros E. injection E as <-. apply sha256_hex_digits. }
  split; [exact A|]. split; [exact B|]. split.
  - intros x. rewrite A. destruct (normalizeText x) as [[|c y]|] eqn:E; simpl;
      split; try congruence; try reflexivity.
    apply normalizeText_canonical in E as [E _]. contradiction.
  - apply createContentHash_truthy.
Qed.

(** What the callers store and compare: a stored peer with the normalized
    text of the submission, and with the hash that [createContentHash] gave
    that text, makes the report one of score 1 and category ["high"]. *)
Lemma identical_text_scores_1 text peers peer r :
  truthy text = true ->
  In peer peers ->
  peer_normalizedText peer = text ->
  peer_contentHash peer = createContentHash (peer_normalizedText peer) ->
  buildSimilarityReport text (createContentHash text) peers = Ok r ->
  report_score r = 1%float /\ category r = high /\
  exists m, In m (matches r) /\ score m = 1%float /\
            toObjectId (_id peer) = Ok (submissionId m).
Proof.
  intros Ht Hin Hn Hh H. rewrite Hn in Hh.
  pose proof (createContentHash_truthy text) as T. rewrite Ht in T.
  destruct (createContentHash text) as [[|c h]|] eqn:E; try discriminate T.
  apply (peer_of_score_1 text (Some (c :: h)) peers peer r); try assumption.
  apply peerScore_equal_hash; [discriminate | exact Hh].
Qed.

Lemma identical_text_scores_1_witness :
  exists r,
    buildSimilarityReport (Some fox_text) (createContentHash (Some fox_text))
      (abcd_peers ++ [fox_peer]) = Ok r /\
    report_score r = 1%float /\ category r = high /\
    exists m, In m (matches r) /\ score m = 1%float /\
              toObjectId (_id fox_peer) = Ok (submissionId m).
Proof.
  eexists. split; [vm_compute; reflexivity|].
  apply (identical_text_scores_1 (Some fox_text) (abcd_peers ++ [fox_peer]) fox_peer).
  - reflexivity.
  - vm_compute. tauto.
  - reflexivity.
  - vm_compute. reflexivity.
  - vm_compute. reflexivity.
Defined.

(** The digests of the sample texts, and of the standard test messages. *)
Example createContentHash_values :
  createContentHash (Some fox_text) = Some fox_hash /\
  createContentHash (Some abcd_text) = Some abcd_hash /\
  createContentHash (Some (a_then "c")) = Some a_then_c_hash /\
  createContentHash (Some (js "abc"))
  = Some (js "ba7816bf8f01cfea414140de5dae2223b00361a396177a9cb410ff61f20015ad") /\
  sha256_hex []
  = js "e3b0c44298fc1c149afbf4c8996fb92427ae41e4649b934ca495991b7852b855" /\
  sha256_hex (List.repeat 97%N 55)
  = js "9f4390f8d30c2dd92ec9f095b65e2b9ae9b0a925a5258e241c9f1e910f734318" /\
  sha256_hex (List.repeat 97%N 56)
  = js "b35439a4ac6f0948b6d6f9e3c6af0f5f590ce20f1bde7090ef7970686ec6738a" /\
  sha256_hex (List.repeat 97%N 64)
  = js "ffe054fe7ae0cb6dc65c3af9b61d5209f439851db43d0ba5997337df154668eb" /\
  createContentHash (Some [104; 233; 108; 108; 111; 32; 8364; 32; 55357; 56832]%N)
  = Some (js "83643b4928cf4914ee6352fed94ef1d9cacb5a843c45544627c6593db3548d74") /\
  createContentHash (Some [120; 55296; 121]%N)
  = Some (js "0b37743370331e33808c0dd0167563798a3c324504cf0055d2b0ac81578d2c58").
Proof. vm_compute. repeat split. Qed.

(** ** More on cosineSimilarity *)

Lemma Math_max_ge x y :
  is_nan (Math_max x y) = false -> (x <=? Math_max x y)%float = true.
Proof.
  unfold Math_max.
  destruct (is_nan x) eqn:Nx; [discriminate|].
  destruct (is_nan y) eqn:Ny; [discriminate|]. simpl. intros _.
  destruct (x <? y)%float eqn:Lxy; [apply ltb_leb, Lxy|].
  destruct (y <? x)%float eqn:Lyx; [apply leb_refl, Nx|].
  destruct (get_sign x); [|apply leb_refl, Nx].
  apply ltb_false_leb; assumption.
Qed.

Lemma Math_min_ge x y z :
  (z <=? x)%float = true -> (z <=? y)%float = true ->
  is_nan (Math_min x y) = false -> (z <=? Math_min x y)%float = true.
Proof.
  unfold Math_min. intros Hx Hy.
  destruct (is_nan x || is_nan y); [discriminate|]. intros _.
  destruct (x <? y)%float; [exact Hx|].
  destruct (y <? x)%float; [exact Hy|].
  destruct (get_sign x); assumption.
Qed.

Lemma Math_max_not_nan x y :
  is_nan (Math_max x y) = false -> is_nan x = false /\ is_nan y = false.
Proof.
  unfold Math_max.
  destruct (is_nan x); [discriminate|]. destruct (is_nan y); [discriminate|].
  auto.
Qed.

Lemma Math_min_not_nan x y :
  is_nan (Math_min x y) = false -> is_nan x = false /\ is_nan y = false.
Proof.
  unfold Math_min.
  destruct (is_nan x); [discriminate|]. destruct (is_nan y); [discriminate|].
  auto.
Qed.

(** The result of [cosineSimilarity] is NaN or a number between 0 and 1. *)
Lemma cosineSimilarity_clamped (a b : JsMap) :
  is_nan (cosineSimilarity a b) = false ->
  unit_interval (cosineSimilarity a b) = true.
Proof.
  unfold cosineSimilarity.
  destruct ((size a =? 0)%nat || (size b =? 0)%nat); [reflexivity|].
  destruct (_ =? 0)%float; [reflexivity|].
  intros H. unfold unit_interval. apply andb_true_iff. split.
  - apply Math_min_ge; [reflexivity | | exact H].
    apply Math_max_ge. exact (proj2 (Math_min_not_nan _ _ H)).
  - apply Math_min_le, H.
Qed.

(** [cosineSimilarity] is never below 0 and never above 1. *)
Lemma cosineSimilarity_never_outside (a b : JsMap) :
  (cosineSimilarity a b <? 0)%float = false /\
  (1 <? cosineSimilarity a b)%float = false.
Proof.
  destruct (is_nan (cosineSimilarity a b)) eqn:N.
  - split; apply not_true_is_false; intros H; apply ltb_not_nan in H; destruct H;
      congruence.
  - apply cosineSimilarity_clamped, andb_true_iff in N as [H0 H1].
    split; apply not_true_is_false; intros H; apply ltb_leb_false in H; congruence.
Qed.

Lemma dotProduct_skips (larger : JsMap) entries : forall dot,
  (forall token weight, In (token, weight) entries -> larger !! token = None) ->
  foldl
    (fun dot '(token, weight) =>
       match larger !! token with
       | Some otherWeight =>
           if otherWeight =? 0 then dot
           else (dot + number_of_Z weight * number_of_Z otherWeight)%float
       | None => dot
       end)
    dot entries
  = dot.
Proof.
  induction entries as [|[t w] entries IH]; intros dot H; [reflexivity|].
  simpl foldl. rewrite (H t w) by (left; reflexivity).
  apply IH. intros token weight Hin. apply (H token weight). right. exact Hin.
Qed.

Lemma dotProduct_disjoint (a b : JsMap) :
  (forall token, a !! token = None \/ b !! token = None) ->
  dotProduct a b = 0%float.
Proof.
  intros D. unfold dotProduct. apply dotProduct_skips.
  intros token weight Hin. destruct (D token) as [E|E]; [|exact E].
  apply get_entry_In in Hin. contradiction.
Qed.

Lemma zero_quotient_not_positive d :
  (0 <? Math_min 1 (Math_max 0 (0 / d)))%float = false.
Proof.
  assert (Q : Prim2SF (0 / d) = S754_nan \/ exists s, Prim2SF (0 / d) = S754_zero s).
  { rewrite div_spec, Prim2SF_0. destruct (Prim2SF d); simpl; eauto. }
  destruct Q as [Q|[s Q]].
  - apply is_nan_spec in Q. unfold Math_max. rewrite Q, orb_true_r. reflexivity.
  - assert (N : is_nan (0 / d) = false)
      by (apply not_true_is_false; rewrite is_nan_spec, Q; discriminate).
    assert (L1 : (0 <? 0 / d)%float = false)
      by (rewrite ltb_spec, Prim2SF_0, Q; reflexivity).
    assert (L2 : (0 / d <? 0)%float = false)
      by (rewrite ltb_spec, Prim2SF_0, Q; reflexivity).
    unfold Math_max. rewrite N, L1, L2. reflexivity.
Qed.

(** Without a common token the similarity is not above 0. *)
Lemma cosineSimilarity_disjoint (a b : JsMap) :
  (forall token, a !! token = None \/ b !! token = None) ->
  (0 <? cosineSimilarity a b)%float = false.
Proof.
  intros D. unfold cosineSimilarity.
  destruct ((size a =? 0)%nat || (size b =? 0)%nat); [reflexivity|].
  destruct (_ =? 0)%float; [reflexivity|].
  assert (E : dotProduct (if (size a <? size b)%nat then a else b)
                (if (size a <? size b)%nat then b else a) = 0%float).
  { destruct (size a <? size b)%nat; apply dotProduct_disjoint;
      [exact D | intros token; destruct (D token); auto]. }
  rewrite E. apply zero_quotient_not_positive.
Qed.

(** ** buildVector *)

Lemma Map_lookup_empty key : (∅ : JsMap) !! key = None.
Proof. reflexivity. Qed.

Lemma Map_lookup_insert_eq (m : JsMap) key value :
  <[key := value]> m !! key = Some value.
Proof.
  unfold lookup, Map_lookup, insert, Map_insert. cbn [Map_entries].
  induction (Map_entries m) as [|[k v] entries IH]; cbn [set_entry get_entry].
  - rewrite bool_decide_eq_true_2 by reflexivity. reflexivity.
  - destruct (decide (k = key)) as [->|E].
    + rewrite bool_decide_eq_true_2 by reflexivity. cbn [get_entry].
      rewrite bool_decide_eq_true_2 by reflexivity. reflexivity.
    + rewrite bool_decide_eq_false_2 by exact E. cbn [get_entry].
      rewrite bool_decide_eq_false_2 by exact E. exact IH.
Qed.

Lemma Map_lookup_insert_ne (m : JsMap) k key value :
  k <> key -> <[k := value]> m !! key = m !! key.
Proof.
  intros Hne. unfold lookup, Map_lookup, insert, Map_insert. cbn [Map_entries].
  induction (Map_entries m) as [|[k' v] entries IH]; cbn [set_entry get_entry].
  - rewrite bool_decide_eq_false_2 by exact Hne. reflexivity.
  - destruct (decide (k' = k)) as [->|E].
    + rewrite bool_decide_eq_true_2 by reflexivity. cbn [get_entry].
      rewrite bool_decide_eq_false_2 by exact Hne. reflexivity.
    + rewrite bool_decide_eq_false_2 by exact E. cbn [get_entry].
      rewrite IH. reflexivity.
Qed.

Lemma set_entry_keys entries key value k :
  In k (List.map fst (set_entry entries key value))
  <-> k = key \/ In k (List.map fst entries).
Proof.
  induction entries as [|[k' v] entries IH]; cbn [set_entry].
  - simpl. intuition.
  - destruct (decide (k' = key)) as [->|E].
    + rewrite bool_decide_eq_true_2 by reflexivity. simpl. intuition.
    + rewrite bool_decide_eq_false_2 by exact E. simpl. rewrite IH. intuition.
Qed.

Lemma set_entry_NoDup entries key value :
  NoDup (List.map fst entries) ->
  NoDup (List.map fst (set_entry entries key value)).
Proof.
  induction entries as [|[k v] entries IH]; cbn [set_entry]; intros N.
  - simpl. apply NoDup_singleton.
  - destruct (decide (k = key)) as [->|E].
    + rewrite bool_decide_eq_true_2 by reflexivity. exact N.
    + rewrite bool_decide_eq_false_2 by exact E. simpl in *.
      apply NoDup_cons in N as [Hk N]. apply NoDup_cons. split; [|exact (IH N)].
      rewrite list_elem_of_In in *. rewrite set_entry_keys. intros [->|H]; tauto.
Qed.

Lemma set_entry_positive entries key value :
  0 < value ->
  Forall (fun entry => 0 < snd entry) entries ->
  Forall (fun entry => 0 < snd entry) (set_entry entries key value).
Proof.
  intros Hv F. induction F as [|[k v] entries Hk F IH]; cbn [set_entry].
  - repeat constructor. exact Hv.
  - destruct (bool_decide (k = key)); constructor; assumption.
Qed.

Lemma countToken_wf vector token : Map_wf vector -> Map_wf (countToken vector token).
Proof.
  intros [N F]. destruct token as [|c token]; [split; assumption|].
  unfold countToken, insert, Map_insert, Map_wf. cbn [Map_entries]. split.
  - apply set_entry_NoDup, N.
  - apply set_entry_positive; [|exact F].
    pose proof (weight_in_positive vector (c :: token) F) as P.
    unfold weight_in in P. lia.
Qed.

(** The vectors of [buildVector] hold no key twice and no count below 1. *)
Lemma buildVector_wf normalized : Map_wf (buildVector normalized).
Proof.
  assert (G : forall pieces vector,
             Map_wf vector -> Map_wf (foldl countToken vector pieces)).
  { induction pieces as [|piece pieces IH]; intros vector W; [exact W|].
    simpl. apply IH, countToken_wf, W. }
  assert (E : buildVector normalized
              = foldl countToken ∅ (split 32 (default [] normalized)))
    by (unfold buildVector; destruct normalized as [[|c s]|]; reflexivity).
  rewrite E. apply G. split; constructor.
Qed.

Lemma occurrences_cons token piece pieces :
  occurrences token (piece :: pieces)
  = (if bool_decide (piece = token) then 1 else 0) + occurrences token pieces.
Proof.
  unfold occurrences. rewrite filter_cons.
  destruct (decide (piece = token)) as [E|E].
  - rewrite bool_decide_eq_true_2 by exact E. simpl length. lia.
  - rewrite bool_decide_eq_false_2 by exact E. lia.
Qed.

Lemma occurrences_nonneg token pieces : 0 <= occurrences token pieces.
Proof. unfold occurrences. lia. Qed.

Lemma occurrences_pos token pieces :
  0 < occurrences token pieces <-> In token pieces.
Proof.
  induction pieces as [|piece pieces IH]; [unfold occurrences; simpl; lia|].
  rewrite occurrences_cons. pose proof (occurrences_nonneg token pieces).
  simpl. destruct (decide (piece = token)) as [E|E].
  - rewrite bool_decide_eq_true_2 by exact E. split; [auto | lia].
  - rewrite bool_decide_eq_false_2 by exact E. rewrite Z.add_0_l, IH. tauto.
Qed.

Lemma occurrences_perm token pieces1 pieces2 :
  Permutation pieces1 pieces2 ->
  occurrences token pieces1 = occurrences token pieces2.
Proof.
  induction 1; rewrite ?occurrences_cons; lia.
Qed.

Lemma countTokens_lookup pieces : forall (vector : JsMap) token,
  token <> [] ->
  foldl countToken vector pieces !! token
  = if occurrences token pieces =? 0 then vector !! token
    else Some (weight_in vector token + occurrences token pieces).
Proof.
  induction pieces as [|piece pieces IH]; intros vector token Ht; [reflexivity|].
  simpl foldl. rewrite IH by exact Ht. rewrite occurrences_cons.
  pose proof (occurrences_nonneg token pieces) as P.
  destruct (decide (piece = token)) as [->|E].
  - rewrite bool_decide_eq_true_2 by reflexivity.
    destruct token as [|c token]; [contradiction|]. unfold countToken, weight_in.
    rewrite Map_lookup_insert_eq. simpl default.
    destruct (Z.eqb_spec (occurrences (c :: token) pieces) 0) as [->|];
      destruct (Z.eqb_spec (1 + occurrences (c :: token) pieces) 0); try lia;
      f_equal; lia.
  - rewrite bool_decide_eq_false_2 by exact E. rewrite Z.add_0_l.
    destruct piece as [|c piece]; [reflexivity|]. unfold countToken, weight_in.
    rewrite Map_lookup_insert_ne by exact E. reflexivity.
Qed.

Lemma countTokens_lookup_nil pieces : forall (vector : JsMap),
  foldl countToken vector pieces !! [] = vector !! [].
Proof.
  induction pieces as [|piece pieces IH]; intros vector; [reflexivity|].
  simpl foldl. rewrite IH. destruct piece; [reflexivity|].
  unfold countToken. apply Map_lookup_insert_ne. discriminate.
Qed.

Lemma buildVector_countTokens normalized :
  buildVector normalized = foldl countToken ∅ (split 32 (default [] normalized)).
Proof.
  unfold buildVector. destruct normalized as [[|c s]|]; reflexivity.
Qed.

(** The vector holds, for every non-empty piece of the text between two
    spaces, the number of its occurrences, and nothing else. *)
Lemma buildVector_lookup normalized token :
  buildVector normalized !! token
  = if bool_decide (token = []) then None
    else if occurrences token (split 32 (default [] normalized)) =? 0 then None
         else Some (occurrences token (split 32 (default [] normalized))).
Proof.
  rewrite buildVector_countTokens.
  destruct (decide (token = [])) as [->|Ht].
  - rewrite countTokens_lookup_nil. reflexivity.
  - rewrite bool_decide_eq_false_2 by exact Ht.
    rewrite countTokens_lookup by exact Ht.
    unfold weight_in. rewrite Map_lookup_empty. reflexivity.
Qed.

(** The entries of the vector are exactly the words of the text with the
    number of their occurrences: no entry for the empty piece, none with a
    count below 1. *)
Lemma buildVector_counts_words normalized token n :
  buildVector normalized !! token = Some n <->
  token <> [] /\ 0 < n /\
  n = occurrences token (split 32 (default [] normalized)).
Proof.
  rewrite buildVector_lookup.
  pose proof (occurrences_nonneg token (split 32 (default [] normalized))) as P.
  destruct (decide (token = [])) as [->|Ht].
  - rewrite bool_decide_eq_true_2 by reflexivity. split; [discriminate|].
    intros (H & _). contradiction.
  - rewrite bool_decide_eq_false_2 by exact Ht.
    destruct (Z.eqb_spec (occurrences token (split 32 (default [] normalized))) 0)
      as [E|E].
    + split; [discriminate|]. intros (_ & H1 & H2). lia.
    + split.
      * intros H. injection H as <-. repeat split; [exact Ht | lia].
      * intros (_ & _ & ->). reflexivity.
Qed.

Lemma get_entry_NoDup_In entries key value :
  NoDup (List.map fst entries) -> In (key, value) entries ->
  get_entry entries key = Some value.
Proof.
  induction entries as [|[k v] entries IH]; simpl; [tauto|].
  intros N [H|H]; apply NoDup_cons in N as [Hk N].
  - injection H as -> ->. rewrite bool_decide_eq_true_2 by reflexivity. reflexivity.
  - rewrite bool_decide_eq_false_2; [exact (IH N H)|].
    intros ->. apply Hk, list_elem_of_In, (in_map fst _ _ H).
Qed.

Lemma entries_NoDup (entries : list (jsstring * Z)) :
  NoDup (List.map fst entries) -> NoDup entries.
Proof.
  induction entries as [|[k v] entries IH]; simpl; intros N; [constructor|].
  apply NoDup_cons in N as [Hk N]. apply NoDup_cons. split; [|exact (IH N)].
  intros H. apply Hk, list_elem_of_In.
  apply list_elem_of_In in H. exact (in_map fst _ _ H).
Qed.

(** Two vectors with the same counts have the same entries, in some
    order. *)
Lemma Map_entries_perm (a b : JsMap) :
  Map_wf a -> Map_wf b -> (forall token, a !! token = b !! token) ->
  Permutation (Map_entries a) (Map_entries b).
Proof.
  intros [Na _] [Nb _] L. apply NoDup_Permutation; try apply entries_NoDup;
    try assumption.
  intros [t w]. rewrite !list_elem_of_In. specialize (L t).
  unfold lookup, Map_lookup in L. split; intros H.
  - apply get_entry_Some_In. rewrite <- L. apply get_entry_NoDup_In; assumption.
  - apply get_entry_Some_In. rewrite L. apply get_entry_NoDup_In; assumption.
Qed.

Lemma foldr_add_perm {A} (f : A -> Z) l k :
  Permutation l k ->
  foldr (fun x sum => f x + sum) 0 l = foldr (fun x sum => f x + sum) 0 k.
Proof. induction 1; simpl; lia. Qed.

Lemma exact_magnitude_entries (v : JsMap) :
  exact_magnitude v
  = foldr (fun entry sum => snd entry * snd entry + sum) 0 (Map_entries v).
Proof.
  unfold exact_magnitude, Map_values.
  induction (Map_entries v) as [|[t w] entries IH]; simpl; [reflexivity|].
  rewrite IH. reflexivity.
Qed.

Lemma dotProduct_ext (v a b : JsMap) :
  (forall token, a !! token = b !! token) -> dotProduct v a = dotProduct v b.
Proof.
  intros L. unfold dotProduct. generalize 0%float.
  induction (Map_entries v) as [|[t w] entries IH]; intros dot; [reflexivity|].
  simpl foldl. rewrite (L t). apply IH.
Qed.

(** As long as no addition of the loops rounds, the similarity depends on
    the counts of a vector only, not on the order of its entries. *)
Lemma cosineSimilarity_same_counts (a b v : JsMap) :
  Map_wf a -> Map_wf b -> Map_wf v ->
  (forall token, a !! token = b !! token) ->
  exact_magnitude a < 2 ^ 53 -> exact_dot a v < 2 ^ 53 ->
  cosineSimilarity a v = cosineSimilarity b v.
Proof.
  intros Wa Wb Wv L Bm Bd.
  pose proof (Map_entries_perm a b Wa Wb L) as P.
  assert (Es : size a = size b) by (apply Permutation_length, P).
  assert (Em : exact_magnitude a = exact_magnitude b).
  { rewrite !exact_magnitude_entries.
    apply (foldr_add_perm (fun entry => snd entry * snd entry)), P. }
  assert (Ed : exact_dot a v = exact_dot b v).
  { unfold exact_dot.
    apply (foldr_add_perm (fun entry => snd entry * weight_in v (fst entry))), P. }
  destruct Wa as [_ Fa], Wb as [_ Fb], Wv as [_ Fv].
  unfold cosineSimilarity. rewrite <- Es.
  rewrite (magnitude_exact a Fa Bm), (magnitude_exact b Fb) by lia.
  rewrite <- Em.
  destruct ((size a =? 0)%nat || (size v =? 0)%nat); [reflexivity|].
  destruct (_ =? 0)%float; [reflexivity|].
  destruct (size a <? size v)%nat.
  - rewrite (dotProduct_exact a v Fa Fv Bd), (dotProduct_exact b v Fb Fv) by lia.
    rewrite Ed. reflexivity.
  - rewrite (dotProduct_ext v a b L). reflexivity.
Qed.

(** The order of the words matters only to the order of the entries: two
    texts whose pieces are the same up to their order have vectors with the
    same counts and of the same size, and, as long as the sum of the squares
    and the dot product over the integers are below 2^53, so that no
    addition of the loops rounds, the same similarity with every vector of
    counts. *)
Lemma buildVector_word_order normalized1 normalized2 :
  Permutation (split 32 (default [] normalized1))
    (split 32 (default [] normalized2)) ->
  (forall token,
     buildVector normalized1 !! token = buildVector normalized2 !! token) /\
  size (buildVector normalized1) = size (buildVector normalized2) /\
  (forall v : JsMap,
     Map_wf v ->
     exact_magnitude (buildVector normalized1) < 2 ^ 53 ->
     exact_dot (buildVector normalized1) v < 2 ^ 53 ->
     cosineSimilarity (buildVector normalized1) v
     = cosineSimilarity (buildVector normalized2) v).
Proof.
  intros P.
  assert (L : forall token,
             buildVector normalized1 !! token = buildVector normalized2 !! token).
  { intros token. rewrite !buildVector_lookup.
    rewrite (occurrences_perm token _ _ P). reflexivity. }
  split; [exact L|]. split.
  - apply Permutation_length, Map_entries_perm; [apply buildVector_wf.. | exact L].
  - intros v Wv Bm Bd.
    apply cosineSimilarity_same_counts; try assumption; apply buildVector_wf.
Qed.

Lemma buildVector_word_order_witness :
  (forall token,
     buildVector (Some (js "a b c d")) !! token
     = buildVector (Some (js "d a c b")) !! token) /\
  size (buildVector (Some (js "a b c d")))
  = size (buildVector (Some (js "d a c b"))) /\
  (forall v : JsMap,
     Map_wf v ->
     exact_magnitude (buildVector (Some (js "a b c d"))) < 2 ^ 53 ->
     exact_dot (buildVector (Some (js "a b c d"))) v < 2 ^ 53 ->
     cosineSimilarity (buildVector (Some (js "a b c d"))) v
     = cosineSimilarity (buildVector (Some (js "d a c b"))) v).
Proof.
  apply buildVector_word_order.
  apply (bool_decide_unpack _). vm_compute. exact I.
Defined.

(** ** More on normalizeText *)

(** The two replacements together replace every maximal run of code units
    outside [a-z0-9] by one space. *)
Lemma replace_runs_twice s : forall in_run1 in_run2,
  (in_run1 = true -> in_run2 = true) ->
  replace_runs is_space in_run2 (replace_runs not_az09_space in_run1 s)
  = replace_runs (fun c => negb (is_az09 c)) in_run2 s.
Proof.
  induction s as [|c s IH]; intros in_run1 in_run2 Hrun; [reflexivity|].
  simpl. unfold not_az09_space at 1.
  destruct (is_az09 c) eqn:Ea.
  - destruct (is_az09_facts c Ea) as (Es & _ & _). rewrite Es. simpl.
    rewrite Es. f_equal. apply IH. discriminate.
  - simpl. destruct (is_space c) eqn:Es; simpl.
    + rewrite Es. rewrite (IH false true) by reflexivity. reflexivity.
    + destruct in_run1.
      * rewrite (Hrun eq_refl). apply IH. reflexivity.
      * simpl. rewrite (IH true true) by reflexivity. reflexivity.
Qed.

Lemma canonical_form_one_pass s :
  canonical_form s
  = trim (replace_runs (fun c => negb (is_az09 c)) false (toLowerCase s)).
Proof.
  unfold canonical_form. rewrite replace_runs_twice by auto. reflexivity.
Qed.

Lemma normalizeText_canonical_form s :
  normalizeText (Some s)
  = match canonical_form s with
    | [] => None
    | normalized => Some normalized
    end.
Proof.
  destruct s as [|c s]; [reflexivity|].
  change (normalizeText (Some (c :: s)))
    with (if (0 <? length (canonical_form (c :: s)))%nat
          then Some (canonical_form (c :: s)) else None).
  destruct (canonical_form (c :: s)); reflexivity.
Qed.

(** [normalizeText] in one pass: lower case, every run of code units other
    than [a-z0-9] replaced by one space, and the ends trimmed; absent when
    the input or the result is empty. *)
Lemma normalizeText_one_pass (input : option jsstring) :
  normalizeText input
  = match input with
    | Some s =>
        match trim (replace_runs (fun c => negb (is_az09 c)) false
                      (toLowerCase s)) with
        | [] => None
        | normalized => Some normalized
        end
    | None => None
    end.
Proof.
  destruct input as [s|]; [|reflexivity].
  rewrite normalizeText_canonical_form, canonical_form_one_pass. reflexivity.
Qed.

Lemma lower_unit_idempotent c :
  List.flat_map lower_unit (lower_unit c) = lower_unit c.
Proof.
  unfold lower_unit.
  destruct ((65 <=? c) && (c <=? 90))%N eqn:E1.
  - apply andb_true_iff in E1 as [H1 H2]. apply N.leb_le in H1, H2.
    simpl. unfold lower_unit.
    destruct (N.leb_spec 65 (c + 32)), (N.leb_spec (c + 32) 90); simpl; try lia;
      repeat match goal with
             | |- context [(?a =? ?b)%N] => destruct (N.eqb_spec a b); try lia
             end; reflexivity.
  - destruct (N.eqb_spec c 304) as [->|E2]; [reflexivity|].
    destruct (N.eqb_spec c 8490) as [->|E3]; [reflexivity|].
    simpl. unfold lower_unit. rewrite E1.
    destruct (N.eqb_spec c 304); [contradiction|].
    destruct (N.eqb_spec c 8490); [contradiction|]. reflexivity.
Qed.

Lemma toLowerCase_idempotent s : toLowerCase (toLowerCase s) = toLowerCase s.
Proof.
  unfold toLowerCase. induction s as [|c s IH]; [reflexivity|].
  simpl. rewrite flat_map_app, IH, lower_unit_idempotent. reflexivity.
Qed.

(** Upper and lower case are not told apart. *)
Lemma normalizeText_ignores_case (s : jsstring) :
  normalizeText (Some (toLowerCase s)) = normalizeText (Some s).
Proof.
  rewrite !normalizeText_canonical_form, !canonical_form_one_pass.
  rewrite toLowerCase_idempotent. reflexivity.
Qed.

Lemma trimEnd_last s c : last (trimEnd s) = Some c -> is_space c = false.
Proof.
  induction s as [|x s IH]; simpl; [discriminate|].
  destruct (trimEnd s) as [|y rest].
  - destruct (is_space x) eqn:E; simpl; [discriminate|]. congruence.
  - intros H. apply IH. rewrite last_cons in H.
    destruct (last (y :: rest)) eqn:L; [exact H|].
    apply last_None in L. discriminate.
Qed.

Lemma split_spaced s : forall b,
  spaced b s = true ->
  (forall c, last s = Some c -> c <> 32%N) ->
  exists piece pieces,
    split 32 s = piece :: pieces /\
    forallb is_az09 piece = true /\
    Forall (fun word => word <> [] /\ forallb is_az09 word = true) pieces /\
    (piece = [] -> s = [] \/ b = false).
Proof.
  induction s as [|c s IH]; intros b H L.
  - exists [], []. repeat split; auto.
  - simpl in H. simpl split.
    assert (L' : forall c', last s = Some c' -> c' <> 32%N).
    { intros c' E. apply L. rewrite last_cons, E. reflexivity. }
    destruct (N.eqb_spec c 32) as [->|Hc].
    + apply andb_true_iff in H as [Hb H]. destruct b; [discriminate|].
      destruct (IH true H L') as (piece & pieces & E & A & F & N).
      exists [], (piece :: pieces). rewrite E. repeat split; auto.
      constructor; [|exact F]. split; [|exact A].
      intros ->. destruct (N eq_refl) as [->|]; [|discriminate].
      apply (L 32%N); reflexivity.
    + apply andb_true_iff in H as [Ha H].
      destruct (IH false H L') as (piece & pieces & E & A & F & _).
      exists (c :: piece), pieces. rewrite E. repeat split; auto.
      * simpl. rewrite Ha. exact A.
      * discriminate.
Qed.

(** The pieces of a normalized text between two spaces are words: none is
    empty, and each is made of [a-z0-9] only. *)
Lemma normalizeText_words (input : option jsstring) (normalized : jsstring) :
  normalizeText input = Some normalized ->
  Forall (fun word => word <> [] /\ forallb is_az09 word = true)
    (split 32 normalized).
Proof.
  intros H. apply normalizeText_canonical in H as (Hy & s & _ & E).
  pose proof (canonical_form_spaced s) as S. rewrite <- E in S.
  assert (L : forall c, last normalized = Some c -> c <> 32%N).
  { intros c Hc ->. rewrite E in Hc. unfold canonical_form, trim in Hc.
    apply trimEnd_last in Hc. discriminate. }
  destruct (split_spaced normalized true S L) as (piece & pieces & Es & A & F & N).
  rewrite Es. constructor; [|exact F]. split; [|exact A].
  intros ->. destruct (N eq_refl); [contradiction | discriminate].
Qed.

Lemma normalizeText_words_witness :
  Forall (fun word => word <> [] /\ forallb is_az09 word = true)
    (split 32 (js "hi world")).
Proof.
  apply (normalizeText_words (Some (js "Hi, World!!")) (js "hi world")).
  reflexivity.
Defined.

(** ** Peers without a common word *)

Lemma buildVector_disjoint (text1 text2 : option jsstring) :
  (forall word, word <> [] ->
     In word (split 32 (default [] text1)) ->
     In word (split 32 (default [] text2)) -> False) ->
  forall token,
    buildVector text1 !! token = None \/ buildVector text2 !! token = None.
Proof.
  intros D token. rewrite !buildVector_lookup.
  destruct (decide (token = [])) as [->|Ht]; [left; reflexivity|].
  rewrite bool_decide_eq_false_2 by exact Ht.
  destruct (Z.eqb_spec (occurrences token (split 32 (default [] text1))) 0)
    as [|N1]; [left; reflexivity|].
  destruct (Z.eqb_spec (occurrences token (split 32 (default [] text2))) 0)
    as [|N2]; [right; reflexivity|].
  exfalso. apply (D token Ht); apply occurrences_pos;
    match goal with
    | |- 0 < occurrences ?t ?l => pose proof (occurrences_nonneg t l)
    end; lia.
Qed.

Lemma peerScore_disjoint text hash peer :
  hash <> peer_contentHash peer ->
  (forall word, word <> [] ->
     In word (split 32 (default [] text)) ->
     In word (split 32 (default [] (peer_normalizedText peer))) -> False) ->
  (0 <? peerScore (buildVector text) hash peer)%float = false.
Proof.
  intros Hh D. unfold peerScore.
  assert (E : strict_eq hash (peer_contentHash peer) = false)
    by (unfold strict_eq; apply bool_decide_eq_false_2; exact Hh).
  rewrite E, andb_false_r.
  destruct (truthy (peer_normalizedText peer)); [|reflexivity].
  apply cosineSimilarity_disjoint, buildVector_disjoint, D.
Qed.

(** A peer with another hash and no word in common with the submission
    leaves no trace: the outcome of the call is the one without that peer,
    whatever its identifier is. *)
Lemma peer_without_common_word text hash before peer after :
  hash <> peer_contentHash peer ->
  (forall word, word <> [] ->
     In word (split 32 (default [] text)) ->
     In word (split 32 (default [] (peer_normalizedText peer))) -> False) ->
  buildSimilarityReport text hash (before ++ peer :: after)
  = buildSimilarityReport text hash (before ++ after).
Proof.
  intros Hh D. unfold buildSimilarityReport.
  destruct (truthy text); simpl; [|reflexivity].
  rewrite <- (scanPeers_scoring_peers _ _ (before ++ peer :: after)).
  rewrite <- (scanPeers_scoring_peers _ _ (before ++ after)).
  unfold scoring_peers. rewrite !List.filter_app. simpl.
  rewrite (peerScore_disjoint text hash peer Hh D). reflexivity.
Qed.

Lemma peer_without_common_word_witness :
  buildSimilarityReport (Some abcd_text) (Some abcd_hash)
    ([abxy_peer; abc_peer] ++ fox_peer :: [])
  = buildSimilarityReport (Some abcd_text) (Some abcd_hash)
      ([abxy_peer; abc_peer] ++ []).
Proof.
  apply (peer_without_common_word (Some abcd_text) (Some abcd_hash)
           [abxy_peer; abc_peer] fox_peer []).
  - intros H. vm_compute in H. discriminate H.
  - intros word Hw H1 H2. vm_compute in H1.
    repeat (destruct H1 as [H1|H1];
            [subst word; vm_compute in H2;
             repeat (destruct H2 as [H2|H2]; [discriminate H2|]); exact H2|]).
    exact H1.
Defined.

(** ** extractSubmissionText and the callers *)

Lemma is_space_facts c :
  is_space c = true -> is_az09 c = false /\ lower_unit c = [c].
Proof.
  intros H. destruct (is_az09 c) eqn:Ea.
  - destruct (is_az09_facts c Ea) as (Es & _). congruence.
  - split; [reflexivity|]. unfold lower_unit.
    destruct ((65 <=? c) && (c <=? 90))%N eqn:E1.
    + exfalso. apply andb_true_iff in E1 as [H1 H2]. apply N.leb_le in H1, H2.
      revert H. unfold is_space.
      repeat match goal with
             | |- context [(?a <=? ?b)%N] => destruct (N.leb_spec a b); try lia
             | |- context [(?a =? ?b)%N] => destruct (N.eqb_spec a b); try lia
             end; simpl; discriminate.
    + destruct (N.eqb_spec c 304) as [->|]; [discriminate H|].
      destruct (N.eqb_spec c 8490) as [->|]; [discriminate H|]. reflexivity.
Qed.

Lemma trimStart_nil s : forallb is_space s = true -> trimStart s = [].
Proof.
  induction s as [|c s IH]; simpl; [reflexivity|].
  intros H. apply andb_true_iff in H as [-> H]. exact (IH H).
Qed.

Lemma trimEnd_nil s : forallb is_space s = true -> trimEnd s = [].
Proof.
  induction s as [|c s IH]; simpl; [reflexivity|].
  intros H. apply andb_true_iff in H as [-> H]. rewrite (IH H). reflexivity.
Qed.

Lemma trimStart_head s c : head (trimStart s) = Some c -> is_space c = false.
Proof.
  induction s as [|x s IH]; simpl; [discriminate|].
  destruct (is_space x) eqn:E; [exact IH|]. simpl. congruence.
Qed.

Lemma trimEnd_split s :
  exists suffix, s = trimEnd s ++ suffix /\ forallb is_space suffix = true.
Proof.
  induction s as [|c s (suffix & E & F)]; [exists []; auto|].
  simpl. destruct (trimEnd s) as [|y rest].
  - simpl in E. subst suffix. destruct (is_space c) eqn:Ec.
    + exists (c :: s). simpl. rewrite Ec. auto.
    + exists s. auto.
  - exists suffix. split; [|exact F]. simpl. f_equal. exact E.
Qed.

Lemma trimEnd_head s c : head (trimEnd s) = Some c -> head s = Some c.
Proof.
  destruct (trimEnd_split s) as (suffix & E & _). rewrite E at 2.
  destruct (trimEnd s); [discriminate | exact id].
Qed.

Lemma trim_nil s : trim s = [] -> forallb is_space s = true.
Proof.
  unfold trim. induction s as [|c s IH]; simpl; [reflexivity|].
  destruct (is_space c) eqn:E; [exact IH|]. simpl.
  destruct (trimEnd s); rewrite ?E; discriminate.
Qed.

Lemma trimEnd_app_space x y :
  forallb is_space y = true -> trimEnd (x ++ y) = trimEnd x.
Proof.
  intros F. induction x as [|c x IH]; [exact (trimEnd_nil y F)|].
  simpl. rewrite IH. reflexivity.
Qed.

Lemma trim_app_space x y : forallb is_space y = true -> trim (x ++ y) = trim x.
Proof.
  intros F. unfold trim. induction x as [|c x IH].
  - simpl. rewrite (trimStart_nil y F). reflexivity.
  - simpl. destruct (is_space c); [exact IH|].
    exact (trimEnd_app_space (c :: x) y F).
Qed.

Lemma replace_runs_app class x : forall in_run y,
  exists in_run',
    replace_runs class in_run (x ++ y)
    = replace_runs class in_run x ++ replace_runs class in_run' y.
Proof.
  induction x as [|c x IH]; intros in_run y; [exists in_run; reflexivity|].
  simpl. destruct (class c).
  - destruct (IH true y) as (r & E). exists r. rewrite E.
    destruct in_run; reflexivity.
  - destruct (IH false y) as (r & E). exists r. rewrite E. reflexivity.
Qed.

Lemma replace_runs_all_class class s : forall in_run,
  forallb class s = true ->
  forallb is_space (replace_runs class in_run s) = true.
Proof.
  induction s as [|c s IH]; intros in_run F; [reflexivity|].
  simpl in *. apply andb_true_iff in F as [-> F].
  destruct in_run; simpl; auto.
Qed.

Lemma trimStart_replace_runs class s :
  trimStart (replace_runs class true s) = trimStart (replace_runs class false s).
Proof.
  destruct s as [|c s]; [reflexivity|]. simpl. destruct (class c); reflexivity.
Qed.

Lemma canonical_form_space c s :
  is_space c = true -> canonical_form (c :: s) = canonical_form s.
Proof.
  intros H. destruct (is_space_facts c H) as (Ea & El).
  rewrite !canonical_form_one_pass. unfold toLowerCase. simpl flat_map.
  rewrite El. simpl. rewrite Ea. simpl. unfold trim. simpl trimStart.
  rewrite trimStart_replace_runs. reflexivity.
Qed.

Lemma canonical_form_trimStart s :
  canonical_form (trimStart s) = canonical_form s.
Proof.
  induction s as [|c s IH]; [reflexivity|]. simpl.
  destruct (is_space c) eqn:E; [|reflexivity].
  rewrite IH. symmetry. apply canonical_form_space, E.
Qed.

Lemma toLowerCase_space s : forallb is_space s = true -> toLowerCase s = s.
Proof.
  induction s as [|c s IH]; [reflexivity|]. simpl.
  intros H. apply andb_true_iff in H as [Hc H].
  unfold toLowerCase. simpl. rewrite (proj2 (is_space_facts c Hc)).
  simpl. f_equal. exact (IH H).
Qed.

Lemma canonical_form_app_space s suffix :
  forallb is_space suffix = true -> canonical_form (s ++ suffix) = canonical_form s.
Proof.
  intros F. rewrite !canonical_form_one_pass. unfold toLowerCase.
  rewrite flat_map_app. fold (toLowerCase s) (toLowerCase suffix).
  rewrite (toLowerCase_space suffix F).
  destruct (replace_runs_app (fun c => negb (is_az09 c)) (toLowerCase s) false
              suffix) as (r & ->).
  apply trim_app_space, replace_runs_all_class.
  apply forallb_forall. intros c Hc.
  rewrite forallb_forall in F.
  destruct (is_space_facts c (F c Hc)) as (-> & _). reflexivity.
Qed.

Lemma canonical_form_trimEnd s : canonical_form (trimEnd s) = canonical_form s.
Proof.
  destruct (trimEnd_split s) as (suffix & E & F). rewrite E at 2.
  symmetry. apply canonical_form_app_space, F.
Qed.

(** White space at the ends of a text is invisible to the normalization. *)
Lemma canonical_form_trim s : canonical_form (trim s) = canonical_form s.
Proof.
  unfold trim. rewrite canonical_form_trimEnd. apply canonical_form_trimStart.
Qed.

Lemma normalizeText_trim s : normalizeText (Some (trim s)) = normalizeText (Some s).
Proof.
  rewrite !normalizeText_canonical_form, canonical_form_trim. reflexivity.
Qed.

Lemma normalizeText_all_space s :
  forallb is_space s = true -> normalizeText (Some s) = None.
Proof.
  intros F. rewrite normalizeText_canonical_form.
  change s with ([] ++ s) at 1.
  rewrite (canonical_form_app_space [] s F). reflexivity.
Qed.

Lemma join_cons sep chunk rest :
  exists tail, join sep (chunk :: rest) = chunk ++ tail.
Proof.
  destruct rest as [|next rest].
  - exists []. simpl. rewrite app_nil_r. reflexivity.
  - exists (sep ++ join sep (next :: rest)). reflexivity.
Qed.

Lemma collectChunks_omap env files : forall chunks,
  foldl
    (fun chunks filePath =>
       match fileChunk env filePath with
       | Some content => chunks ++ [content]
       | None => chunks
       end)
    chunks files
  = chunks ++ omap (fileChunk env) files.
Proof.
  induction files as [|f files IH]; intros chunks; simpl.
  - rewrite app_nil_r. reflexivity.
  - rewrite IH. destruct (fileChunk env f); [|reflexivity].
    rewrite <- app_assoc. reflexivity.
Qed.

(** The extracted text is absent, or it is not empty and neither begins nor
    ends with white space. *)
Lemma extractSubmissionText_trimmed env files providedText extracted :
  extractSubmissionText env files providedText = Some extracted ->
  extracted <> [] /\
  (forall c, head extracted = Some c -> is_space c = false) /\
  (forall c, last extracted = Some c -> is_space c = false).
Proof.
  unfold extractSubmissionText.
  generalize (join [10%N] (collectChunks env files providedText)). intros joined.
  destruct (trim joined) as [|c rest] eqn:E; simpl; [discriminate|].
  intros H. injection H as <-. rewrite <- E.
  split; [rewrite E; discriminate|]. unfold trim. split.
  - intros x Hx. apply trimEnd_head in Hx. exact (trimStart_head _ _ Hx).
  - intros x. apply trimEnd_last.
Qed.

Lemma extractSubmissionText_trimmed_witness :
  sample_extracted <> [] /\
  (forall c, head sample_extracted = Some c -> is_space c = false) /\
  (forall c, last sample_extracted = Some c -> is_space c = false).
Proof.
  apply (extractSubmissionText_trimmed sample_readers
           [js "uploads/scan.pdf"; js "uploads/essay.TXT"]
           (Some (js "  My answer"))).
  vm_compute. reflexivity.
Defined.

Lemma collectChunks_skips env before filePath after providedText :
  fileChunk env filePath = None ->
  collectChunks env (before ++ filePath :: after) providedText
  = collectChunks env (before ++ after) providedText.
Proof.
  intros H. unfold collectChunks.
  rewrite !collectChunks_omap, !omap_app. simpl. rewrite H. reflexivity.
Qed.

(** A file that gives no content (its read fails, or what is read is empty)
    changes nothing. *)
Lemma extractSubmissionText_skips env before filePath after providedText :
  fileChunk env filePath = None ->
  extractSubmissionText env (before ++ filePath :: after) providedText
  = extractSubmissionText env (before ++ after) providedText.
Proof.
  intros H. unfold extractSubmissionText.
  rewrite (collectChunks_skips env before filePath after providedText H).
  reflexivity.
Qed.

Lemma extractSubmissionText_skips_witness :
  extractSubmissionText sample_readers
    ([js "uploads/essay.TXT"] ++ js "uploads/scan.pdf" :: []) None
  = extractSubmissionText sample_readers ([js "uploads/essay.TXT"] ++ []) None.
Proof.
  apply (extractSubmissionText_skips sample_readers [js "uploads/essay.TXT"]
           (js "uploads/scan.pdf") [] None).
  vm_compute. reflexivity.
Defined.

Lemma fileChunk_other_extension env filePath :
  ~ In (toLowerCase (extname env filePath))
      (TEXT_EXTENSIONS ++ [js ".pdf"; js ".docx"]) ->
  fileChunk env filePath = None.
Proof.
  intros H. unfold fileChunk, has.
  rewrite bool_decide_eq_false_2.
  2: { intros E. apply H, in_or_app. left. apply list_elem_of_In, E. }
  rewrite bool_decide_eq_false_2.
  2: { intros E. apply H, in_or_app. right. left. symmetry. exact E. }
  rewrite bool_decide_eq_false_2; [reflexivity|].
  intros E. apply H, in_or_app. right. right. left. symmetry. exact E.
Qed.

(** A file whose extension, in lower case, is none of the eight that are
    read changes nothing, whatever the readers would give for it. *)
Lemma extractSubmissionText_other_extensions env before filePath after
    providedText :
  ~ In (toLowerCase (extname env filePath))
      (TEXT_EXTENSIONS ++ [js ".pdf"; js ".docx"]) ->
  extractSubmissionText env (before ++ filePath :: after) providedText
  = extractSubmissionText env (before ++ after) providedText.
Proof.
  intros H. unfold extractSubmissionText.
  rewrite (collectChunks_skips env before filePath after providedText
             (fileChunk_other_extension env filePath H)).
  reflexivity.
Qed.

Lemma extractSubmissionText_other_extensions_witness :
  extractSubmissionText sample_readers
    ([] ++ js "uploads/photo.png" :: [js "uploads/essay.TXT"]) None
  = extractSubmissionText sample_readers ([] ++ [js "uploads/essay.TXT"]) None.
Proof.
  apply (extractSubmissionText_other_extensions sample_readers []
           (js "uploads/photo.png") [js "uploads/essay.TXT"] None).
  vm_compute. intros H.
  repeat (destruct H as [H|H]; [discriminate H|]). exact H.
Defined.

Lemma provided_all_space env files providedText :
  forallb is_space (join [10%N] (collectChunks env files providedText)) = true ->
  normalizeText providedText = None.
Proof.
  intros E. destruct providedText as [[|c s]|]; try reflexivity.
  apply normalizeText_all_space.
  revert E. unfold collectChunks. rewrite collectChunks_omap.
  change ((if truthy (Some (c :: s)) then [default [] (Some (c :: s))] else [])
          ++ omap (fileChunk env) files)
    with ((c :: s) :: omap (fileChunk env) files).
  destruct (join_cons [10%N] (c :: s) (omap (fileChunk env) files))
    as (tail & ->).
  intros E. rewrite forallb_app in E. apply andb_true_iff in E as [E _].
  exact E.
Qed.

(** The text that is normalized is the provided text followed by the
    contents read from the files, one per line: the trimming by
    [extractSubmissionText] and the fall-back to the provided text make no
    difference. *)
Lemma analysis_normalizes_all_chunks env files providedText peerSubmissions :
  analysis_normalizedText
    (analyseSubmission env files providedText peerSubmissions)
  = normalizeText (Some (join [10%N] (collectChunks env files providedText))).
Proof.
  unfold analyseSubmission, analysis_normalizedText, extractSubmissionText.
  destruct (trim (join [10%N] (collectChunks env files providedText)))
    as [|c rest] eqn:E.
  - apply trim_nil in E. simpl nullish_or. rewrite (normalizeText_all_space _ E).
    exact (provided_all_space env files providedText E).
  - simpl nullish_or. rewrite <- E. apply normalizeText_trim.
Qed.

(** When nothing is extracted, the provided text does not normalize to a
    text either: nothing is stored but the empty report, and no peer is
    looked at. *)
Lemma nothing_extracted env files providedText peerSubmissions :
  extractSubmissionText env files providedText = None ->
  analyseSubmission env files providedText peerSubmissions
  = {| analysis_extractedText := None;
       analysis_normalizedText := None;
       analysis_contentHash := None;
       analysis_report :=
         Ok {| report_score := 0;
               category := none;
               matches := [];
               contentHash := None;
               normalizedText := None;
               extractedText := None |} |}.
Proof.
  intros H.
  assert (T : forallb is_space (join [10%N] (collectChunks env files providedText))
              = true).
  { apply trim_nil. revert H. unfold extractSubmissionText.
    destruct (trim _); [reflexivity | discriminate]. }
  unfold analyseSubmission. rewrite H. simpl nullish_or.
  rewrite (provided_all_space env files providedText T). reflexivity.
Qed.

Lemma nothing_extracted_witness :
  analyseSubmission sample_readers [js "uploads/scan.pdf"; js "uploads/photo.png"]
    (Some (js "   ")) [ill_named_peer]
  = {| analysis_extractedText := None;
       analysis_normalizedText := None;
       analysis_contentHash := None;
       analysis_report :=
         Ok {| report_score := 0;
               category := none;
               matches := [];
               contentHash := None;
               normalizedText := None;
               extractedText := None |} |}.
Proof.
  apply (nothing_extracted sample_readers
           [js "uploads/scan.pdf"; js "uploads/photo.png"] (Some (js "   "))
           [ill_named_peer]).
  vm_compute. reflexivity.
Defined.

(** ** toObjectId and String *)

Lemma hex_digit_hex_value c :
  is_hex c = true ->
  (hex_value c < 16)%N /\ lower_unit c = [hex_digit (hex_value c)].
Proof.
  unfold is_hex, hex_value, hex_digit, lower_unit. intros H.
  assert (R : (48 <= c <= 57 \/ 97 <= c <= 102 \/ 65 <= c <= 70)%N).
  { rewrite !orb_true_iff, !andb_true_iff, !N.leb_le in H. lia. }
  clear H.
  destruct (N.leb_spec c 57); [|destruct (N.leb_spec c 70)].
  - split; [lia|].
    destruct (N.ltb_spec (c - 48) 10); [|lia].
    destruct (N.leb_spec 65 c); [lia|]. simpl.
    destruct (N.eqb_spec c 304); [lia|]. destruct (N.eqb_spec c 8490); [lia|].
    f_equal. lia.
  - split; [lia|].
    destruct (N.ltb_spec (c - 55) 10); [lia|].
    destruct (N.leb_spec 65 c); [|lia]. destruct (N.leb_spec c 90); [|lia].
    simpl. f_equal. lia.
  - split; [lia|].
    destruct (N.ltb_spec (c - 87) 10); [lia|].
    destruct (N.leb_spec 65 c); [|lia]. destruct (N.leb_spec c 90); [lia|].
    simpl.
    destruct (N.eqb_spec c 304); [lia|]. destruct (N.eqb_spec c 8490); [lia|].
    f_equal. lia.
Qed.

Lemma toString_bytes_of_hex n : forall s,
  length s = (2 * n)%nat -> forallb is_hex s = true ->
  ObjectId_toString {| id_bytes := bytes_of_hex s |} = toLowerCase s.
Proof.
  unfold ObjectId_toString, toLowerCase. simpl id_bytes.
  induction n as [|n IH]; intros s L F.
  - destruct s; [reflexivity | discriminate].
  - destruct s as [|hi [|lo s]]; try (simpl in L; lia).
    simpl in F. apply andb_true_iff in F as [Hhi F].
    apply andb_true_iff in F as [Hlo F].
    destruct (hex_digit_hex_value hi Hhi) as (Bhi & Ehi).
    destruct (hex_digit_hex_value lo Hlo) as (Blo & Elo).
    simpl. rewrite Ehi, Elo, IH by (simpl in L; auto; lia). simpl.
    replace ((16 * hex_value hi + hex_value lo) / 16)%N with (hex_value hi).
    2: { symmetry. rewrite N.mul_comm, N.div_add_l by lia.
         rewrite N.div_small by exact Blo. apply N.add_0_r. }
    replace ((16 * hex_value hi + hex_value lo) mod 16)%N with (hex_value lo).
    2: { symmetry. rewrite N.add_comm, N.mul_comm, N.Div0.mod_add.
         apply N.mod_small, Blo. }
    reflexivity.
Qed.

(** The identifier made from a string, written back with [String], is the
    string in lower case. *)
Lemma toObjectId_toString (value : jsstring) (oid : ObjectId) :
  toObjectId (inr value) = Ok oid ->
  ObjectId_toString oid = toLowerCase value.
Proof.
  simpl. unfold new_ObjectId.
  destruct (length value =? 24)%nat eqn:L; [|discriminate].
  destruct (forallb is_hex value) eqn:F; [|discriminate]. simpl.
  intros H. injection H as <-. apply Nat.eqb_eq in L.
  apply (toString_bytes_of_hex 12); [exact L | exact F].
Qed.

Lemma toObjectId_toString_witness :
  ObjectId_toString
    {| id_bytes := [101; 240; 161; 178; 195; 212; 229; 246; 1; 35; 69; 103]%N |}
  = toLowerCase (js "65F0A1B2C3D4E5F601234567").
Proof.
  apply (toObjectId_toString (js "65F0A1B2C3D4E5F601234567")). reflexivity.
Defined.

(** ** The update of a matched peer *)

Lemma ltb_irrefl x : (x <? x)%float = false.
Proof.
  destruct (x <? x)%float eqn:E; [|reflexivity].
  pose proof (ltb_leb _ _ E) as L. apply ltb_leb_false in E. congruence.
Qed.

Lemma Math_max_ge_r x y :
  is_nan (Math_max x y) = false -> (y <=? Math_max x y)%float = true.
Proof.
  unfold Math_max.
  destruct (is_nan x) eqn:Nx; [discriminate|].
  destruct (is_nan y) eqn:Ny; [discriminate|]. simpl. intros _.
  destruct (x <? y)%float eqn:Lxy; [apply leb_refl, Ny|].
  destruct (y <? x)%float eqn:Lyx; [apply ltb_leb, Lyx|].
  destruct (get_sign x); [apply leb_refl, Ny|].
  apply ltb_false_leb; assumption.
Qed.

Lemma Math_max_idempotent x y : Math_max (Math_max x y) y = Math_max x y.
Proof.
  unfold Math_max.
  destruct (is_nan x) eqn:Nx; [reflexivity|].
  destruct (is_nan y) eqn:Ny; [reflexivity|]. simpl.
  assert (Ey : (if (is_nan y || false)%bool then nan
                else if (y <? y)%float then y
                else if (y <? y)%float then y
                else if get_sign y then y else y) = y).
  { rewrite Ny, ltb_irrefl. simpl. destruct (get_sign y); reflexivity. }
  destruct (x <? y)%float eqn:Lxy; [exact Ey|].
  destruct (y <? x)%float eqn:Lyx.
  - rewrite Nx, Lxy, Lyx. reflexivity.
  - destruct (get_sign x) eqn:Sx; [exact Ey|].
    rewrite Nx, Lxy, Lyx, Sx. reflexivity.
Qed.

Lemma severity_bucketScore_le s1 s2 :
  (s1 <=? s2)%float = true ->
  (severity (bucketScore s1) <= severity (bucketScore s2))%nat.
Proof.
  intros H.
  destruct (bucketScore_cases s1) as (_ & _ & ->).
  destruct (bucketScore_cases s2) as (Hhm & Hml & ->).
  pose proof (fun c E => leb_trans (threshold c) s1 s2 E H) as T.
  pose proof (T high) as Th. pose proof (T medium) as Tm. pose proof (T low) as Tl.
  destruct (threshold high <=? s1)%float, (threshold medium <=? s1)%float,
    (threshold low <=? s1)%float;
    try rewrite (Th eq_refl); try rewrite (Tm eq_refl) in *;
    try rewrite (Tl eq_refl) in *;
    destruct (threshold high <=? s2)%float, (threshold medium <=? s2)%float,
      (threshold low <=? s2)%float; simpl; try lia;
    try (specialize (Hhm eq_refl)); try (specialize (Hml eq_refl));
    try (specialize (Th eq_refl)); try (specialize (Tm eq_refl));
    try (specialize (Tl eq_refl)); discriminate.
Qed.

Lemma findIndex_Some {A} (predicate : A -> bool) array : forall index,
  findIndex predicate array = Some index ->
  exists x, array !! index = Some x /\ predicate x = true.
Proof.
  induction array as [|x array IH]; intros index; simpl; [discriminate|].
  destruct (predicate x) eqn:E.
  - intros H. injection H as <-. exists x. auto.
  - destruct (findIndex predicate array) as [i|]; simpl; [|discriminate].
    intros H. injection H as <-. exact (IH i eq_refl).
Qed.

Lemma findIndex_alter {A} (predicate : A -> bool) (f : A -> A) array :
  (forall x, predicate (f x) = predicate x) ->
  forall index,
    findIndex predicate (alter f index array) = findIndex predicate array.
Proof.
  intros Hf. induction array as [|x array IH]; intros index; [reflexivity|].
  destruct index as [|index]; simpl.
  - rewrite Hf. reflexivity.
  - specialize (IH index). unfold alter in IH. rewrite IH. reflexivity.
Qed.

Lemma findIndex_push {A} (predicate : A -> bool) array x :
  findIndex predicate array = None -> predicate x = true ->
  findIndex predicate (array ++ [x]) = Some (length array).
Proof.
  intros H Hx. induction array as [|y array IH]; simpl in *; [rewrite Hx; reflexivity|].
  destruct (predicate y); [discriminate|].
  destruct (findIndex predicate array); [discriminate|].
  rewrite (IH eq_refl). reflexivity.
Qed.

Lemma findIndex_None_filter {A} (predicate : A -> bool) array :
  findIndex predicate array = None ->
  List.filter (fun x => negb (predicate x)) array = array.
Proof.
  induction array as [|y array IH]; simpl; [reflexivity|].
  destruct (predicate y); [discriminate|]. simpl.
  destruct (findIndex predicate array); [discriminate|].
  intros _. rewrite (IH eq_refl). reflexivity.
Qed.

Lemma filter_alter {A} (predicate : A -> bool) (f : A -> A) array :
  (forall x, predicate (f x) = predicate x) ->
  forall index,
    findIndex predicate array = Some index ->
    List.filter (fun x => negb (predicate x)) (alter f index array)
    = List.filter (fun x => negb (predicate x)) array.
Proof.
  intros Hf. induction array as [|y array IH]; intros index; [discriminate|].
  simpl findIndex. destruct (predicate y) eqn:E.
  - intros H. injection H as <-. simpl. rewrite Hf, E. reflexivity.
  - destruct (findIndex predicate array) as [i|]; simpl; [|discriminate].
    intros H. injection H as <-. simpl. rewrite E. simpl.
    specialize (IH i eq_refl). unfold alter in IH. rewrite IH. reflexivity.
Qed.

Lemma alter_twice {A} (f : A -> A) (array : list A) :
  (forall x, f (f x) = f x) ->
  forall index, alter f index (alter f index array) = alter f index array.
Proof.
  intros Hf. induction array as [|y array IH]; intros index; [reflexivity|].
  destruct index as [|index]; simpl.
  - rewrite Hf. reflexivity.
  - specialize (IH index). unfold alter in IH. rewrite IH. reflexivity.
Qed.

Lemma alter_pushed {A} (f : A -> A) (array : list A) x :
  f x = x -> alter f (length array) (array ++ [x]) = array ++ [x].
Proof.
  intros Hx. unfold alter.
  induction array as [|y array IH]; simpl; [rewrite Hx|rewrite IH];
    reflexivity.
Qed.

Lemma lookup_alter_at {A} (f : A -> A) (array : list A) : forall index x,
  array !! index = Some x -> alter f index array !! index = Some (f x).
Proof.
  unfold alter.
  induction array as [|y array IH]; intros [|index] x; simpl; try discriminate.
  - intros H. injection H as <-. reflexivity.
  - apply IH.
Qed.

Lemma length_alter_at {A} (f : A -> A) (array : list A) : forall index,
  length (alter f index array) = length array.
Proof.
  unfold alter. induction array as [|y array IH]; intros [|index]; simpl; auto.
Qed.

(** After the update the peer's matches hold an entry of the submission
    with the score of the match, found by the same search; the entries of
    other submissions are as before, and the list grows by one entry only
    when the submission had none. *)
Lemma updatePeerReport_entry similarityReport id submissionObjectId match_ :
  ObjectId_toString submissionObjectId = id ->
  let previous :=
    match similarityReport with
    | Some report => stored_matches report
    | None => []
    end in
  let updated :=
    stored_matches
      (updatePeerReport similarityReport id submissionObjectId match_) in
  (exists index entry,
     findIndex (is_entry_of id) updated = Some index /\
     updated !! index = Some entry /\
     score entry = score match_) /\
  List.filter (fun existing => negb (is_entry_of id existing)) updated
  = List.filter (fun existing => negb (is_entry_of id existing)) previous /\
  length updated
  = match findIndex (is_entry_of id) previous with
    | Some _ => length previous
    | None => S (length previous)
    end.
Proof.
  intros Hid previous updated. subst updated. unfold updatePeerReport.
  fold previous. simpl stored_matches.
  set (f := fun existing : MatchResult =>
              {| submissionId := submissionId existing; score := score match_ |}).
  assert (Hf : forall x, is_entry_of id (f x) = is_entry_of id x) by reflexivity.
  destruct (findIndex (is_entry_of id) previous) as [index|] eqn:E.
  - destruct (findIndex_Some _ _ _ E) as (x & Hx & _).
    split; [|split].
    + exists index, (f x). rewrite (findIndex_alter _ f previous Hf), E.
      rewrite (lookup_alter_at f previous index x Hx). auto.
    + apply filter_alter; assumption.
    + apply length_alter_at.
  - assert (Hp : is_entry_of id {| submissionId := submissionObjectId;
                                   score := score match_ |} = true)
      by (unfold is_entry_of; simpl; apply bool_decide_eq_true_2, Hid).
    split; [|split].
    + eexists _, _. rewrite (findIndex_push _ previous _ E Hp).
      split; [reflexivity|].
      rewrite lookup_app_r by lia. rewrite Nat.sub_diag. simpl. auto.
    + rewrite List.filter_app. simpl. rewrite Hp. simpl. apply app_nil_r.
    + rewrite length_app. simpl. lia.
Qed.

Lemma updatePeerReport_entry_witness :
  (exists index entry,
     findIndex (is_entry_of (js "65f0a1b2c3d4e5f601234568"))
       (stored_matches
          (updatePeerReport (Some sample_stored) (js "65f0a1b2c3d4e5f601234568")
             other_oid sample_match)) = Some index /\
     stored_matches
       (updatePeerReport (Some sample_stored) (js "65f0a1b2c3d4e5f601234568")
          other_oid sample_match) !! index = Some entry /\
     score entry = score sample_match) /\
  List.filter
    (fun existing => negb (is_entry_of (js "65f0a1b2c3d4e5f601234568") existing))
    (stored_matches
       (updatePeerReport (Some sample_stored) (js "65f0a1b2c3d4e5f601234568")
          other_oid sample_match))
  = List.filter
      (fun existing => negb (is_entry_of (js "65f0a1b2c3d4e5f601234568") existing))
      (stored_matches sample_stored) /\
  length
    (stored_matches
       (updatePeerReport (Some sample_stored) (js "65f0a1b2c3d4e5f601234568")
          other_oid sample_match))
  = match findIndex (is_entry_of (js "65f0a1b2c3d4e5f601234568"))
            (stored_matches sample_stored) with
    | Some _ => length (stored_matches sample_stored)
    | None => S (length (stored_matches sample_stored))
    end.
Proof.
  apply (updatePeerReport_entry (Some sample_stored)
           (js "65f0a1b2c3d4e5f601234568") other_oid sample_match).
  vm_compute. reflexivity.
Defined.

(** The peer's score after the update is the larger of its old score and
    the score of the match: it never goes down, not even when the update
    lowers the entry of the submission, and neither does its category. *)
Lemma updatePeerReport_score similarityReport id submissionObjectId match_ :
  let previous :=
    match similarityReport with
    | Some report => stored_score report
    | None => 0%float
    end in
  let updated := updatePeerReport similarityReport id submissionObjectId match_ in
  is_nan previous = false -> is_nan (score match_) = false ->
  (previous <=? stored_score updated)%float = true /\
  (score match_ <=? stored_score updated)%float = true /\
  ((score match_ <? previous)%float = true -> stored_score updated = previous) /\
  stored_category updated = bucketScore (stored_score updated) /\
  (severity (bucketScore previous) <= severity (stored_category updated))%nat.
Proof.
  intros previous updated Np Nm. subst updated. unfold updatePeerReport.
  fold previous. simpl stored_score. simpl stored_category.
  assert (N : is_nan (Math_max previous (score match_)) = false).
  { unfold Math_max. rewrite Np, Nm. simpl.
    destruct (_ <? _)%float; [exact Nm|]. destruct (_ <? _)%float; [exact Np|].
    destruct (get_sign previous); assumption. }
  pose proof (Math_max_ge _ _ N) as G.
  split; [exact G|]. split; [apply Math_max_ge_r, N|].
  split; [|split; [reflexivity | apply severity_bucketScore_le, G]].
  intros L. unfold Math_max. rewrite Np, Nm, L. simpl.
  destruct (previous <? score match_)%float eqn:L'; [|reflexivity].
  apply ltb_leb_false in L'. rewrite (ltb_leb _ _ L) in L'. discriminate.
Qed.

Lemma updatePeerReport_score_witness :
  (stored_score sample_stored
   <=? stored_score
         (updatePeerReport (Some sample_stored) (js "65f0a1b2c3d4e5f601234568")
            other_oid sample_match))%float = true /\
  (score sample_match
   <=? stored_score
         (updatePeerReport (Some sample_stored) (js "65f0a1b2c3d4e5f601234568")
            other_oid sample_match))%float = true /\
  ((score sample_match <? stored_score sample_stored)%float = true ->
   stored_score
     (updatePeerReport (Some sample_stored) (js "65f0a1b2c3d4e5f601234568")
        other_oid sample_match)
   = stored_score sample_stored) /\
  stored_category
    (updatePeerReport (Some sample_stored) (js "65f0a1b2c3d4e5f601234568")
       other_oid sample_match)
  = bucketScore
      (stored_score
         (updatePeerReport (Some sample_stored) (js "65f0a1b2c3d4e5f601234568")
            other_oid sample_match)) /\
  (severity (bucketScore (stored_score sample_stored))
   <= severity
        (stored_category
           (updatePeerReport (Some sample_stored) (js "65f0a1b2c3d4e5f601234568")
              other_oid sample_match)))%nat.
Proof.
  apply (updatePeerReport_score (Some sample_stored)
           (js "65f0a1b2c3d4e5f601234568") other_oid sample_match);
    reflexivity.
Defined.

(** Doing the update a second time changes nothing: no second entry is
    pushed. *)
Lemma updatePeerReport_idempotent similarityReport id submissionObjectId match_ :
  ObjectId_toString submissionObjectId = id ->
  updatePeerReport
    (Some (updatePeerReport similarityReport id submissionObjectId match_))
    id submissionObjectId match_
  = updatePeerReport similarityReport id submissionObjectId match_.
Proof.
  intros Hid. unfold updatePeerReport at 1.
  set (updated := updatePeerReport similarityReport id submissionObjectId match_).
  assert (Es : Math_max (stored_score updated) (score match_)
               = stored_score updated) by apply Math_max_idempotent.
  rewrite Es.
  set (f := fun existing : MatchResult =>
              {| submissionId := submissionId existing; score := score match_ |}).
  assert (Hf : forall x, is_entry_of id (f x) = is_entry_of id x) by reflexivity.
  assert (Em : match findIndex (is_entry_of id) (stored_matches updated) with
               | Some index => alter f index (stored_matches updated)
               | None => stored_matches updated
                         ++ [{| submissionId := submissionObjectId;
                                score := score match_ |}]
               end = stored_matches updated).
  { subst updated. unfold updatePeerReport. simpl stored_matches. fold f.
    set (previous := match similarityReport with
                     | Some report => stored_matches report
                     | None => []
                     end).
    destruct (findIndex (is_entry_of id) previous) as [index|] eqn:E.
    - rewrite (findIndex_alter _ f previous Hf), E.
      apply alter_twice. reflexivity.
    - rewrite (findIndex_push _ previous _ E)
        by (unfold is_entry_of; simpl; apply bool_decide_eq_true_2, Hid).
      apply alter_pushed. reflexivity. }
  fold f. rewrite Em. subst updated. unfold updatePeerReport. reflexivity.
Qed.

Lemma updatePeerReport_idempotent_witness :
  updatePeerReport
    (Some (updatePeerReport None (js "65f0a1b2c3d4e5f601234568") other_oid
             sample_match))
    (js "65f0a1b2c3d4e5f601234568") other_oid sample_match
  = updatePeerReport None (js "65f0a1b2c3d4e5f601234568") other_oid sample_match.
Proof.
  apply (updatePeerReport_idempotent None (js "65f0a1b2c3d4e5f601234568")
           other_oid sample_match).
  vm_compute. reflexivity.
Defined.

(** ** The flagged submissions *)

Lemma flagged_bucketScore s : flagged (bucketScore s) = (0.6 <=? s)%float.
Proof.
  destruct (bucketScore_cases s) as (Hhm & _ & ->).
  change (0.6 <=? s)%float with (threshold medium <=? s)%float.
  destruct (threshold high <=? s)%float; [rewrite (Hhm eq_refl); reflexivity|].
  destruct (threshold medium <=? s)%float; [reflexivity|].
  destruct (threshold low <=? s)%float; reflexivity.
Qed.

(** Both writers of a stored report keep its category in step with its
    score, so the filter of [getFlaggedSubmissions] selects exactly the
    reports with a score of at least 0.6: those that [buildSimilarityReport]
    returned, and those that the update of a matched peer wrote. *)
Lemma flagged_iff_score :
  (forall text hash peers r,
     buildSimilarityReport text hash peers = Ok r ->
     flagged (category r) = (0.6 <=? report_score r)%float) /\
  (forall similarityReport id submissionObjectId match_,
     flagged
       (stored_category
          (updatePeerReport similarityReport id submissionObjectId match_))
     = (0.6 <=? stored_score
                  (updatePeerReport similarityReport id submissionObjectId
                     match_))%float).
Proof.
  split.
  - intros text hash peers r H.
    apply buildSimilarityReport_well_formed in H as (_ & _ & _ & ->).
    apply flagged_bucketScore.
  - intros similarityReport id submissionObjectId match_.
    unfold updatePeerReport. simpl stored_category. simpl stored_score.
    apply flagged_bucketScore.
Qed.
